(** * pico: cluster state, proxy dispatcher and RPC stream

    A shallow embedding of the routing core of the pico reverse proxy:
    - [Cluster]: the cluster state of server/cluster (State and its
      mutation API);
    - [Shared]: the calls of that API about remote nodes, on the Node
      objects and Endpoints maps the state shares with its callers;
    - [Proxy]: the per-request policy of server/proxy (Proxy.Request,
      endpointIDFromRequest, errorResponse);
    - [Rpc]: shutdown and request handling of pkg/rpc/stream.go.

    Every operation that runs under a mutex in the Go code is one atomic
    function here; logging, subscriber callbacks and calls to collaborators
    are recorded in an explicit trace. *)

From Stdlib Require Import ZArith String Ascii List Bool Lia.
From stdpp Require Import gmap strings list fin_maps.

Local Open Scope string_scope.
Local Open Scope Z_scope.

(** ** Go's [int]

    The listener counts are Go [int]s, 64 bits wide on the platforms the
    server runs on; arithmetic wraps around. *)

Definition int_min : Z := - 2 ^ 63.
Definition int_max : Z := 2 ^ 63 - 1.

Definition int_wrap (z : Z) : Z := (z + 2 ^ 63) mod 2 ^ 64 - 2 ^ 63.
Definition int_add (a b : Z) : Z := int_wrap (a + b).
Definition int_sub (a b : Z) : Z := int_wrap (a - b).

Definition in_int (z : Z) : Prop := int_min <= z <= int_max.

(** Functions that can panic return a [result]. *)
Inductive result (A : Type) : Type :=
| Ok (a : A)
| Panic (msg : string).
Arguments Ok {A} a.
Arguments Panic {A} msg.

Definition bind {A B : Type} (r : result A) (k : A -> result B) : result B :=
  match r with
  | Ok a => k a
  | Panic msg => Panic msg
  end.

Module Cluster.

(** Modelled from the spec: the declaration of NodeStatus is not part of the
    sources at hand; the spec gives [Status ∈ {Active, Unreachable, Left}]. *)
Inductive NodeStatus : Type :=
| NodeStatusActive
| NodeStatusUnreachable
| NodeStatusLeft.

Definition NodeStatus_eqb (a b : NodeStatus) : bool :=
  match a, b with
  | NodeStatusActive, NodeStatusActive
  | NodeStatusUnreachable, NodeStatusUnreachable
  | NodeStatusLeft, NodeStatusLeft => true
  | _, _ => false
  end.

(** Modelled from the spec: the declaration of Node is not part of the
    sources at hand; the spec lists the fields ID, Status, ProxyAddr,
    AdminAddr and Endpoints (endpoint ID to listener count).  [Endpoints]
    is a Go map, which may be nil: [None] is the nil map.

    The state owns the nodes it is handed: a node is stored by value, and
    an assignment through the *Node held in [nodes] is written back to
    the map.  [Shared] below has the calls about remote nodes on Node
    objects and maps that the state shares with its callers. *)
Record Node : Type := mkNode {
  ID : string;
  Status : NodeStatus;
  ProxyAddr : string;
  AdminAddr : string;
  Endpoints : option (gmap string Z)
}.

Definition set_Status (st : NodeStatus) (n : Node) : Node :=
  mkNode (ID n) st (ProxyAddr n) (AdminAddr n) (Endpoints n).

Definition set_Endpoints (eps : option (gmap string Z)) (n : Node) : Node :=
  mkNode (ID n) (Status n) (ProxyAddr n) (AdminAddr n) eps.

(** [m[k]] on a Go map: the zero value when the key is absent, also on
    the nil map. *)
Definition map_get (m : gmap string Z) (k : string) : Z :=
  match m !! k with
  | Some v => v
  | None => 0
  end.

(** The endpoint table of a node as it reads: the nil map reads as the
    empty map. *)
Definition table (n : Node) : gmap string Z :=
  match Endpoints n with
  | Some m => m
  | None => ∅
  end.

(** What the state does to the outside: lines written to the logger at
    level warn, and calls of the subscribers of local endpoint updates. *)
Inductive event : Type :=
| Warn (msg : string)
| Notify (subscriber : nat) (endpointID : string) (listeners : Z).

(** Metrics.Nodes: a gauge per node status. *)
Definition Metrics : Type := NodeStatus -> Z.

Definition NewMetrics : Metrics := fun _ => 0.

Definition gauge_add (d : Z) (status : NodeStatus) (m : Metrics) : Metrics :=
  fun st => if NodeStatus_eqb st status then m st + d else m st.

(** A subscriber is a callback [func(endpointID string, listeners int)];
    it is identified by a number and its calls are recorded in the trace. *)
Record State : Type := mkState {
  localID : string;
  nodes : gmap string Node;
  localEndpointSubscribers : list nat;
  metrics : Metrics;
  trace : list event
}.

Definition set_nodes (ns : gmap string Node) (s : State) : State :=
  mkState (localID s) ns (localEndpointSubscribers s) (metrics s) (trace s).

Definition set_metrics (m : Metrics) (s : State) : State :=
  mkState (localID s) (nodes s) (localEndpointSubscribers s) m (trace s).

Definition emit (evs : list event) (s : State) : State :=
  mkState (localID s) (nodes s) (localEndpointSubscribers s) (metrics s)
          (trace s ++ evs).

Definition logger_Warn (msg : string) (s : State) : State :=
  emit [Warn msg] s.

Definition addMetricsNode (status : NodeStatus) (s : State) : State :=
  set_metrics (gauge_add 1 status (metrics s)) s.

Definition removeMetricsNode (status : NodeStatus) (s : State) : State :=
  set_metrics (gauge_add (-1) status (metrics s)) s.

Definition updateMetricsNode (oldStatus newStatus : NodeStatus) (s : State)
  : State :=
  addMetricsNode newStatus (removeMetricsNode oldStatus s).

Definition NewState (localNode : Node) : State :=
  (* The local node is always active. *)
  let localNode := set_Status NodeStatusActive localNode in
  let nodes := <[ID localNode := localNode]> (∅ : gmap string Node) in
  addMetricsNode (Status localNode)
    (mkState (ID localNode) nodes [] NewMetrics []).

Definition LocalID (s : State) : string := localID s.

(** Node.Copy is a deep copy; values are their own copies. *)
Definition Node_ (id : string) (s : State) : option Node :=
  nodes s !! id.

Definition LocalNode (s : State) : result Node :=
  match nodes s !! localID s with
  | None => Panic "local node not in cluster"
  | Some node => Ok node
  end.

(** [for _, f := range s.localEndpointSubscribers { f(endpointID, n) }] *)
Definition notify_subscribers (endpointID : string) (listeners : Z)
    (s : State) : State :=
  emit (map (fun f => Notify f endpointID listeners)
            (localEndpointSubscribers s)) s.

(** [if node.Endpoints == nil { node.Endpoints = make(map[string]int) }] *)
Definition make_if_nil (eps : option (gmap string Z)) : gmap string Z :=
  match eps with
  | Some m => m
  | None => ∅
  end.

Definition AddLocalEndpoint (endpointID : string) (s : State)
  : result State :=
  match nodes s !! localID s with
  | None => Panic "local node not in cluster"
  | Some node =>
      let eps := make_if_nil (Endpoints node) in
      let eps := <[endpointID := int_add (map_get eps endpointID) 1]> eps in
      let node := set_Endpoints (Some eps) node in
      let s := set_nodes (<[localID s := node]> (nodes s)) s in
      Ok (notify_subscribers endpointID (map_get eps endpointID) s)
  end.

Definition RemoveLocalEndpoint (endpointID : string) (s : State)
  : result State :=
  match nodes s !! localID s with
  | None => Panic "local node not in cluster"
  | Some node =>
      let eps : gmap string Z := make_if_nil (Endpoints node) in
      let store (eps : gmap string Z) (s : State) : State :=
        set_nodes (<[localID s := set_Endpoints (Some eps) node]> (nodes s)) s
      in
      match (eps !! endpointID : option Z) with
      | None =>
          Ok (logger_Warn "remove local endpoint: endpoint not found"
                (store eps s))
      | Some listeners =>
          if listeners =? 0 then
            Ok (logger_Warn "remove local endpoint: endpoint not found"
                  (store eps s))
          else
            let eps :=
              if 1 <? listeners
              then <[endpointID := int_sub listeners 1]> eps
              else delete endpointID eps in
            Ok (notify_subscribers endpointID (map_get eps endpointID)
                  (store eps s))
      end
  end.

Definition OnLocalEndpointUpdate (f : nat) (s : State) : State :=
  mkState (localID s) (nodes s) (localEndpointSubscribers s ++ [f])
          (metrics s) (trace s).

Definition AddNode (node : Node) (s : State) : State :=
  if String.eqb (ID node) (localID s) then
    logger_Warn "add node: cannot add local node" s
  else
    let s :=
      match nodes s !! ID node with
      | Some _ =>
          (* If already in the cluster update the node but warn as this
             should not happen. *)
          logger_Warn "add node: node already in cluster" s
      | None => s
      end in
    addMetricsNode (Status node)
      (set_nodes (<[ID node := node]> (nodes s)) s).

Definition RemoveNode (id : string) (s : State) : bool * State :=
  if String.eqb id (localID s) then
    (false, logger_Warn "remove node: cannot remove local node" s)
  else
    match nodes s !! id with
    | None => (false, logger_Warn "remove node: node not in cluster" s)
    | Some node =>
        (true, removeMetricsNode (Status node)
                 (set_nodes (delete id (nodes s)) s))
    end.

Definition UpdateRemoteStatus (id : string) (status : NodeStatus)
    (s : State) : bool * State :=
  if String.eqb id (localID s) then
    (false, logger_Warn "update remote status: cannot update local node" s)
  else
    match nodes s !! id with
    | None =>
        (false, logger_Warn "update remote status: node not in cluster" s)
    | Some n =>
        let oldStatus := Status n in
        (true, updateMetricsNode oldStatus status
                 (set_nodes (<[id := set_Status status n]> (nodes s)) s))
    end.

Definition UpdateRemoteEndpoint (id endpointID : string) (listeners : Z)
    (s : State) : bool * State :=
  if String.eqb id (localID s) then
    (false, logger_Warn "update remote endpoint: cannot update local node" s)
  else
    match nodes s !! id with
    | None =>
        (false, logger_Warn "update remote endpoint: node not in cluster" s)
    | Some n =>
        let eps := make_if_nil (Endpoints n) in
        let eps := <[endpointID := listeners]> eps in
        (true, set_nodes (<[id := set_Endpoints (Some eps) n]> (nodes s)) s)
    end.

Definition RemoveRemoteEndpoint (id endpointID : string) (s : State)
  : bool * State :=
  if String.eqb id (localID s) then
    (false, logger_Warn "remove remote endpoint: cannot update local node" s)
  else
    match nodes s !! id with
    | None =>
        (false, logger_Warn "remove remote endpoint: node not in cluster" s)
    | Some n =>
        let eps :=
          match Endpoints n with
          | Some m => Some (delete endpointID m)
          | None => None
          end in
        (true, set_nodes (<[id := set_Endpoints eps n]> (nodes s)) s)
    end.

(** LookupEndpoint ranges over the Go map [s.nodes], which visits the
    entries in an unspecified order: [order] is the order of one run, a
    permutation of the entries of [nodes s]. *)
Fixpoint LookupEndpoint_range (localID endpointID : string)
    (order : list Node) : option Node :=
  match order with
  | [] => None
  | node :: rest =>
      if String.eqb (ID node) localID then
        (* Ignore ourselves. *)
        LookupEndpoint_range localID endpointID rest
      else
        match table node !! endpointID with
        | Some listeners =>
            if 0 <? listeners then Some node
            else LookupEndpoint_range localID endpointID rest
        | None => LookupEndpoint_range localID endpointID rest
        end
  end.

Definition LookupEndpoint (endpointID : string) (s : State)
    (order : list Node) : option Node :=
  LookupEndpoint_range (localID s) endpointID order.

(** The calls of the mutation API, and a run of a sequence of calls. *)
Inductive call : Type :=
| CallAddNode (node : Node)
| CallRemoveNode (id : string)
| CallUpdateRemoteStatus (id : string) (status : NodeStatus)
| CallUpdateRemoteEndpoint (id endpointID : string) (listeners : Z)
| CallRemoveRemoteEndpoint (id endpointID : string)
| CallAddLocalEndpoint (endpointID : string)
| CallRemoveLocalEndpoint (endpointID : string)
| CallOnLocalEndpointUpdate (f : nat).

Definition exec (c : call) (s : State) : result State :=
  match c with
  | CallAddNode node => Ok (AddNode node s)
  | CallRemoveNode id => Ok (snd (RemoveNode id s))
  | CallUpdateRemoteStatus id status => Ok (snd (UpdateRemoteStatus id status s))
  | CallUpdateRemoteEndpoint id e n => Ok (snd (UpdateRemoteEndpoint id e n s))
  | CallRemoveRemoteEndpoint id e => Ok (snd (RemoveRemoteEndpoint id e s))
  | CallAddLocalEndpoint e => AddLocalEndpoint e s
  | CallRemoveLocalEndpoint e => RemoveLocalEndpoint e s
  | CallOnLocalEndpointUpdate f => Ok (OnLocalEndpointUpdate f s)
  end.

Fixpoint run (cs : list call) (s : State) : result State :=
  match cs with
  | [] => Ok s
  | c :: cs => bind (exec c s) (run cs)
  end.

(** The listener count of the local node for an endpoint, absence read
    as 0; 0 too when there is no local node. *)
Definition local_listeners (endpointID : string) (s : State) : Z :=
  match nodes s !! localID s with
  | Some node => map_get (table node) endpointID
  | None => 0
  end.

(** ** Specification vocabulary *)

(** Counting the calls of a sequence that add, resp. remove, a listener of
    the endpoint [e] on the local node. *)
Definition is_add (e : string) (c : call) : bool :=
  match c with
  | CallAddLocalEndpoint e' => String.eqb e' e
  | _ => false
  end.

Definition is_remove (e : string) (c : call) : bool :=
  match c with
  | CallRemoveLocalEndpoint e' => String.eqb e' e
  | _ => false
  end.

Definition calls_adding (e : string) (cs : list call) : Z :=
  Z.of_nat (length (List.filter (is_add e) cs)).

Definition calls_removing (e : string) (cs : list call) : Z :=
  Z.of_nat (length (List.filter (is_remove e) cs)).

(** A sequence made of AddLocalEndpoint(e) and RemoveLocalEndpoint(e) only. *)
Definition only_local (e : string) (cs : list call) : bool :=
  forallb (fun c => is_add e c || is_remove e c) cs.

(** The warnings RemoveLocalEndpoint logged. *)
Definition is_remove_warning (ev : event) : bool :=
  match ev with
  | Warn msg => String.eqb msg "remove local endpoint: endpoint not found"
  | Notify _ _ _ => false
  end.

Definition remove_warnings (s : State) : Z :=
  Z.of_nat (length (List.filter is_remove_warning (trace s))).

(** The count kept step by step: up by one on an add, down by one on a
    remove but not below 0. *)
Fixpoint running_count (e : string) (c : Z) (cs : list call) : Z :=
  match cs with
  | [] => c
  | call :: cs =>
      if is_add e call then running_count e (c + 1) cs
      else if is_remove e call then running_count e (Z.max 0 (c - 1)) cs
      else running_count e c cs
  end.

(** The local node is present, carries the local ID and is active. *)
Definition local_active (s : State) : Prop :=
  exists n, nodes s !! LocalID s = Some n
            /\ ID n = LocalID s /\ Status n = NodeStatusActive.


Definition node0 : Node := mkNode "local" NodeStatusLeft "" "" None.
Definition node1 : Node := mkNode "remote" NodeStatusActive "" "" None.

(** The table of the local node after RemoveLocalEndpoint(e), and whether
    the call found nothing to remove. *)
Definition table_after_remove (e : string) (t : gmap string Z)
  : gmap string Z :=
  match t !! e with
  | None => t
  | Some c =>
      if c =? 0 then t
      else if 1 <? c then <[e := int_sub c 1]> t
      else delete e t
  end.

Definition remove_finds_nothing (e : string) (t : gmap string Z) : bool :=
  match t !! e with
  | None => true
  | Some c => c =? 0
  end.

(** ** Further vocabulary: readers, gauges and subscribers *)

(** Nodes ranges over the Go map [s.nodes] and returns a copy of each
    node; [order] is the order of that iteration. *)
Definition Nodes (s : State) (order : list Node) : list Node :=
  map (fun node => node) order.

(** An order in which a range statement may visit the node map. *)
Definition iteration (s : State) (order : list Node) : Prop :=
  order ≡ₚ (map_to_list (nodes s)).*2.

(** A known node other than the local one. *)
Definition is_remote (id : string) (s : State) : bool :=
  negb (String.eqb id (localID s))
  && match nodes s !! id with
     | Some _ => true
     | None => false
     end.

(** Every node is stored under its own ID. *)
Definition keys_are_ids (s : State) : Prop :=
  forall k n, nodes s !! k = Some n -> ID n = k.

(** The number of nodes with a status, and the gauges agreeing with it. *)
Definition nodes_with_status (status : NodeStatus) (s : State) : Z :=
  Z.of_nat
    (size (filter (fun kv : string * Node =>
                     NodeStatus_eqb (Status kv.2) status = true)
                  (nodes s))).

Definition gauges_match (s : State) : Prop :=
  forall status, metrics s status = nodes_with_status status s.

(** Whether each AddNode of a run is for the local ID (and refused) or
    for an ID that is not in the cluster at that point. *)
Fixpoint adds_new_nodes_only (cs : list call) (s : State) : bool :=
  match cs with
  | [] => true
  | c :: cs =>
      match c with
      | CallAddNode node =>
          String.eqb (ID node) (localID s)
          || match nodes s !! ID node with
             | Some _ => false
             | None => true
             end
      | _ => true
      end
      && match exec c s with
         | Ok s' => adds_new_nodes_only cs s'
         | Panic _ => true
         end
  end.





(** The number of nodes of a map that have a status. *)
Definition count_status (status : NodeStatus) (m : gmap string Node) : Z :=
  Z.of_nat
    (size (filter (fun kv : string * Node =>
                     NodeStatus_eqb (Status kv.2) status = true) m)).

Definition one_if (b : bool) : Z := if b then 1 else 0.

(** A local node that holds the largest int as the listener count of the
    endpoint e. *)
Definition node_full : Node :=
  mkNode "local" NodeStatusActive "" "" (Some {["e" := int_max]}).

End Cluster.

(** * The cluster state and the nodes it shares with its callers

    [Cluster] lets the state own its nodes.  The Go code does not copy
    what it is handed: NewState and AddNode keep the *Node of the caller,
    and a node keeps the map its Endpoints field refers to.  Here a node
    is an object behind an address and so is an Endpoints map; the state
    maps node IDs to addresses, and whoever holds an address sees what is
    written through another.  The module covers the calls about remote
    nodes; the subscribers of local endpoint updates, which these calls
    do not touch, are left out of the state. *)
Module Shared.

(** The address of a Node object or of a map object.  A *Node at which no
    object lives is the nil pointer. *)
Definition addr : Type := nat.

(** [Endpoints] refers to a map object; [None] is the nil map. *)
Record Node : Type := mkNode {
  ID : string;
  Status : Cluster.NodeStatus;
  ProxyAddr : string;
  AdminAddr : string;
  Endpoints : option addr
}.

Definition set_Status (st : Cluster.NodeStatus) (n : Node) : Node :=
  mkNode (ID n) st (ProxyAddr n) (AdminAddr n) (Endpoints n).

Definition set_Endpoints (eps : option addr) (n : Node) : Node :=
  mkNode (ID n) (Status n) (ProxyAddr n) (AdminAddr n) eps.

(** The Node objects and the map objects of the program, and the fields of
    the State: [nodes] holds a *Node per node ID, [trace] the warnings
    logged. *)
Record World : Type := mkWorld {
  objects : gmap addr Node;
  maps : gmap addr (gmap string Z);
  localID : string;
  nodes : gmap string addr;
  metrics : Cluster.Metrics;
  trace : list string
}.

Definition set_objects (o : gmap addr Node) (w : World) : World :=
  mkWorld o (maps w) (localID w) (nodes w) (metrics w) (trace w).

Definition set_maps (m : gmap addr (gmap string Z)) (w : World) : World :=
  mkWorld (objects w) m (localID w) (nodes w) (metrics w) (trace w).

Definition set_nodes (ns : gmap string addr) (w : World) : World :=
  mkWorld (objects w) (maps w) (localID w) ns (metrics w) (trace w).

Definition set_metrics (m : Cluster.Metrics) (w : World) : World :=
  mkWorld (objects w) (maps w) (localID w) (nodes w) m (trace w).

Definition logger_Warn (msg : string) (w : World) : World :=
  mkWorld (objects w) (maps w) (localID w) (nodes w) (metrics w)
          (trace w ++ [msg]).

Definition addMetricsNode (status : Cluster.NodeStatus) (w : World) : World :=
  set_metrics (Cluster.gauge_add 1 status (metrics w)) w.

Definition removeMetricsNode (status : Cluster.NodeStatus) (w : World)
  : World :=
  set_metrics (Cluster.gauge_add (-1) status (metrics w)) w.

Definition updateMetricsNode (oldStatus newStatus : Cluster.NodeStatus)
    (w : World) : World :=
  addMetricsNode newStatus (removeMetricsNode oldStatus w).

(** Reading a field through a *Node: a nil pointer panics. *)
Definition deref (p : addr) (w : World) : result Node :=
  match objects w !! p with
  | Some n => Ok n
  | None => Panic "invalid memory address or nil pointer dereference"
  end.

(** The map object a map value that is not nil refers to. *)
Definition deref_map (m : addr) (w : World) : result (gmap string Z) :=
  match maps w !! m with
  | Some t => Ok t
  | None => Panic "map object not found"
  end.

(** [make(map[string]int)]: a new, empty map object. *)
Definition make_map (w : World) : addr * World :=
  let m := fresh (dom (maps w)) in
  (m, set_maps (<[m := ∅]> (maps w)) w).

(** NewState on the Node objects and map objects that exist. *)
Definition NewState (localNode : addr) (objs : gmap addr Node)
    (ms : gmap addr (gmap string Z)) : result World :=
  match objs !! localNode with
  | None => Panic "invalid memory address or nil pointer dereference"
  | Some n =>
      (* The local node is always active. *)
      let n := set_Status Cluster.NodeStatusActive n in
      let objs := <[localNode := n]> objs in
      let nodes := <[ID n := localNode]> (∅ : gmap string addr) in
      Ok (addMetricsNode (Status n)
            (mkWorld objs ms (ID n) nodes Cluster.NewMetrics []))
  end.

Definition AddNode (node : addr) (w : World) : result World :=
  bind (deref node w) (fun n =>
  if String.eqb (ID n) (localID w) then
    Ok (logger_Warn "add node: cannot add local node" w)
  else
    let w :=
      match nodes w !! ID n with
      | Some _ =>
          (* If already in the cluster update the node but warn as this
             should not happen. *)
          logger_Warn "add node: node already in cluster" w
      | None => w
      end in
    Ok (addMetricsNode (Status n)
          (set_nodes (<[ID n := node]> (nodes w)) w))).

Definition RemoveNode (id : string) (w : World) : result (bool * World) :=
  if String.eqb id (localID w) then
    Ok (false, logger_Warn "remove node: cannot remove local node" w)
  else
    match nodes w !! id with
    | None => Ok (false, logger_Warn "remove node: node not in cluster" w)
    | Some node =>
        let w := set_nodes (delete id (nodes w)) w in
        bind (deref node w) (fun n =>
        Ok (true, removeMetricsNode (Status n) w))
    end.

Definition UpdateRemoteStatus (id : string) (status : Cluster.NodeStatus)
    (w : World) : result (bool * World) :=
  if String.eqb id (localID w) then
    Ok (false,
        logger_Warn "update remote status: cannot update local node" w)
  else
    match nodes w !! id with
    | None =>
        Ok (false, logger_Warn "update remote status: node not in cluster" w)
    | Some p =>
        bind (deref p w) (fun n =>
        let oldStatus := Status n in
        (* n.Status = status *)
        let w := set_objects (<[p := set_Status status n]> (objects w)) w in
        Ok (true, updateMetricsNode oldStatus status w))
    end.

Definition UpdateRemoteEndpoint (id endpointID : string) (listeners : Z)
    (w : World) : result (bool * World) :=
  if String.eqb id (localID w) then
    Ok (false,
        logger_Warn "update remote endpoint: cannot update local node" w)
  else
    match nodes w !! id with
    | None =>
        Ok (false,
            logger_Warn "update remote endpoint: node not in cluster" w)
    | Some p =>
        bind (deref p w) (fun n =>
        let '(m, w) :=
          match Endpoints n with
          | Some m => (m, w)
          | None =>
              (* n.Endpoints = make(map[string]int) *)
              let '(m, w) := make_map w in
              (m, set_objects
                    (<[p := set_Endpoints (Some m) n]> (objects w)) w)
          end in
        (* n.Endpoints[endpointID] = listeners *)
        bind (deref_map m w) (fun t =>
        Ok (true, set_maps (<[m := <[endpointID := listeners]> t]> (maps w))
                    w)))
    end.

Definition RemoveRemoteEndpoint (id endpointID : string) (w : World)
  : result (bool * World) :=
  if String.eqb id (localID w) then
    Ok (false,
        logger_Warn "remove remote endpoint: cannot update local node" w)
  else
    match nodes w !! id with
    | None =>
        Ok (false,
            logger_Warn "remove remote endpoint: node not in cluster" w)
    | Some p =>
        bind (deref p w) (fun n =>
        match Endpoints n with
        | Some m =>
            (* delete(n.Endpoints, endpointID) *)
            bind (deref_map m w) (fun t =>
            Ok (true, set_maps (<[m := delete endpointID t]> (maps w)) w))
        | None => Ok (true, w)
        end)
    end.

(** [node.Endpoints[endpointID]] for the node stored under [id]: the
    count and whether the key is there; [None] when it is not, or there
    is no such node. *)
Definition listeners_at (id endpointID : string) (w : World) : option Z :=
  match nodes w !! id with
  | None => None
  | Some p =>
      match objects w !! p with
      | None => None
      | Some n =>
          match Endpoints n with
          | None => None
          | Some m =>
              match maps w !! m with
              | None => None
              | Some t => t !! endpointID
              end
          end
      end
  end.

(** The calls about remote nodes. *)
Inductive call : Type :=
| CallAddNode (node : addr)
| CallRemoveNode (id : string)
| CallUpdateRemoteStatus (id : string) (status : Cluster.NodeStatus)
| CallUpdateRemoteEndpoint (id endpointID : string) (listeners : Z)
| CallRemoveRemoteEndpoint (id endpointID : string).

Definition exec (c : call) (w : World) : result World :=
  match c with
  | CallAddNode node => AddNode node w
  | CallRemoveNode id => bind (RemoveNode id w) (fun r => Ok (snd r))
  | CallUpdateRemoteStatus id status =>
      bind (UpdateRemoteStatus id status w) (fun r => Ok (snd r))
  | CallUpdateRemoteEndpoint id e n =>
      bind (UpdateRemoteEndpoint id e n w) (fun r => Ok (snd r))
  | CallRemoveRemoteEndpoint id e =>
      bind (RemoveRemoteEndpoint id e w) (fun r => Ok (snd r))
  end.

(** ** Specification vocabulary *)

(** What Go guarantees of pointers and map values that are not nil: the
    *Node kept in [nodes] point to Node objects, and the Endpoints of a
    Node object refers to a map object. *)
Definition well_formed (w : World) : Prop :=
  (forall k p, nodes w !! k = Some p -> is_Some (objects w !! p))
  /\ (forall p n m,
        objects w !! p = Some n -> Endpoints n = Some m ->
        is_Some (maps w !! m)).

(** The key of the node map a call may bind anew or remove. *)
Definition key_of (c : call) (w : World) : option string :=
  match c with
  | CallAddNode node =>
      match objects w !! node with
      | Some n => Some (ID n)
      | None => None
      end
  | CallRemoveNode id => Some id
  | CallUpdateRemoteStatus id _ => Some id
  | CallUpdateRemoteEndpoint id _ _ => Some id
  | CallRemoveRemoteEndpoint id _ => Some id
  end.

(** The Node object a call may write to. *)
Definition node_of (c : call) (w : World) : option addr :=
  match c with
  | CallUpdateRemoteStatus id _ => nodes w !! id
  | CallUpdateRemoteEndpoint id _ _ => nodes w !! id
  | _ => None
  end.

(** The map object a call may write to. *)
Definition map_of (c : call) (w : World) : option addr :=
  match c with
  | CallUpdateRemoteEndpoint id _ _ | CallRemoveRemoteEndpoint id _ =>
      match nodes w !! id with
      | None => None
      | Some p =>
          match objects w !! p with
          | None => None
          | Some n => Endpoints n
          end
      end
  | _ => None
  end.

(** A world to try the calls on: the local node and two remote nodes, a
    and b, whose Endpoints refer to the same map object. *)
Definition shared_world : World :=
  mkWorld
    (<[1%nat := mkNode "local" Cluster.NodeStatusActive "" "" None]>
       (<[2%nat := mkNode "a" Cluster.NodeStatusActive "" "" (Some 7%nat)]>
          (<[3%nat := mkNode "b" Cluster.NodeStatusActive "" "" (Some 7%nat)]>
             ∅)))
    (<[7%nat := ∅]> ∅)
    "local"
    (<["local" := 1%nat]> (<["a" := 2%nat]> (<["b" := 3%nat]> ∅)))
    (fun st => if Cluster.NodeStatus_eqb st Cluster.NodeStatusActive
               then 3 else 0)
    [].

End Shared.

Module Proxy.

(** ** Strings of the Go standard library, as far as the proxy uses them *)

Definition byte_of (n : nat) : ascii := ascii_of_nat n.
Definition code (c : ascii) : nat := nat_of_ascii c.

(** strings.Index: the position of the first occurrence of [substr]. *)
Fixpoint strings_Index (s substr : string) : option nat :=
  if String.prefix substr s then Some 0%nat
  else match s with
       | EmptyString => None
       | String _ rest =>
           match strings_Index rest substr with
           | Some i => Some (S i)
           | None => None
           end
       end.

Definition strings_Contains (s substr : string) : bool :=
  match strings_Index s substr with
  | Some _ => true
  | None => false
  end.

(** [s[:m]] and [s[m:]]. *)
Fixpoint take_str (m : nat) (s : string) : string :=
  match m, s with
  | S m', String c rest => String c (take_str m' rest)
  | _, _ => EmptyString
  end.

Fixpoint drop_str (m : nat) (s : string) : string :=
  match m, s with
  | S m', String _ rest => drop_str m' rest
  | _, _ => s
  end.

Fixpoint explode (s : string) : list string :=
  match s with
  | EmptyString => []
  | String c rest => String c EmptyString :: explode rest
  end.

(** The loop of strings.genSplit for a non-empty separator: cut at each
    occurrence found by Index, the rest is the last piece.  The Go loop
    runs at most Count(s, sep) times, which is at most the length of [s];
    [fuel] is that bound. *)
Fixpoint genSplit_loop (fuel : nat) (s sep : string) : list string :=
  match fuel with
  | O => [s]
  | S fuel' =>
      match strings_Index s sep with
      | None => [s]
      | Some m =>
          take_str m s
            :: genSplit_loop fuel' (drop_str (m + String.length sep) s) sep
      end
  end.

Definition strings_Split (s sep : string) : list string :=
  if String.eqb sep EmptyString then explode s
  else genSplit_loop (String.length s) s sep.

(** [a[0]] on a slice: a run-time panic when the slice is empty. *)
Definition index0 (a : list string) : result string :=
  match a with
  | x :: _ => Ok x
  | [] => Panic "index out of range [0] with length 0"
  end.

(** ** net/http headers

    http.Header maps canonical keys to the list of their values; Get and
    Set canonicalise the key they are given. *)

Definition is_lower (c : ascii) : bool :=
  (97 <=? code c)%nat && (code c <=? 122)%nat.
Definition is_upper (c : ascii) : bool :=
  (65 <=? code c)%nat && (code c <=? 90)%nat.
Definition is_digit (c : ascii) : bool :=
  (48 <=? code c)%nat && (code c <=? 57)%nat.
Definition to_upper (c : ascii) : ascii :=
  if is_lower c then byte_of (code c - 32) else c.
Definition to_lower (c : ascii) : ascii :=
  if is_upper c then byte_of (code c + 32) else c.

(** The bytes of an HTTP token: letters, digits and
    [! # $ % & ' * + - . ^ _ ` | ~]. *)
Definition validHeaderFieldByte (c : ascii) : bool :=
  is_lower c || is_upper c || is_digit c
  || existsb (Nat.eqb (code c))
       [33; 35; 36; 37; 38; 39; 42; 43; 45; 46; 94; 95; 96; 124; 126]%nat.

Fixpoint all_bytes (p : ascii -> bool) (s : string) : bool :=
  match s with
  | EmptyString => true
  | String c rest => p c && all_bytes p rest
  end.

Fixpoint canonical_loop (upper : bool) (s : string) : string :=
  match s with
  | EmptyString => EmptyString
  | String c rest =>
      String (if upper then to_upper c else to_lower c)
             (canonical_loop (Ascii.eqb c "-"%char) rest)
  end.

(** textproto.CanonicalMIMEHeaderKey: the first letter and every letter
    after a hyphen in upper case, the others in lower case; a key with a
    byte that is not a token byte is left as it is. *)
Definition CanonicalHeaderKey (key : string) : string :=
  if all_bytes validHeaderFieldByte key then canonical_loop true key
  else key.

Definition Header_Get (h : gmap string (list string)) (key : string)
  : string :=
  match h !! CanonicalHeaderKey key with
  | Some (v :: _) => v
  | _ => EmptyString
  end.

Definition Header_Set (key value : string) (h : gmap string (list string))
  : gmap string (list string) :=
  <[CanonicalHeaderKey key := [value]]> h.

(** The fields of http.Request the proxy reads or writes. *)
Record http_Request : Type := mkRequest {
  Host : string;
  Method : string;
  URL_Path : string;
  Header : gmap string (list string)
}.

Definition set_Header (h : gmap string (list string)) (r : http_Request)
  : http_Request :=
  mkRequest (Host r) (Method r) (URL_Path r) h.

(** The fields of http.Response the proxy sets; [Body = None] is the nil
    body, [Some b] a reader over the bytes [b]. *)
Record http_Response : Type := mkResponse {
  StatusCode : Z;
  ResponseHeader : gmap string (list string);
  Body : option string
}.

Definition StatusBadRequest : Z := 400.
Definition StatusServiceUnavailable : Z := 503.
Definition StatusGatewayTimeout : Z := 504.

(** ** Errors

    [errEndpointNotFound] and context.DeadlineExceeded are sentinels,
    compared by identity; [errorString] is any other errors.New value and
    [wrapError] an error that wraps another one with fmt.Errorf and %w. *)
Inductive error : Type :=
| errEndpointNotFound
| DeadlineExceeded
| errorString (msg : string)
| wrapError (msg : string) (err : error).

Definition is_sentinel (err target : error) : bool :=
  match err, target with
  | errEndpointNotFound, errEndpointNotFound => true
  | DeadlineExceeded, DeadlineExceeded => true
  | _, _ => false
  end.

(** errors.Is for a sentinel target: walk the chain of wrapped errors. *)
Fixpoint errors_Is (err target : error) : bool :=
  is_sentinel err target
  || match err with
     | wrapError _ inner => errors_Is inner target
     | _ => false
     end.

(** ** encoding/json for [errorMessage] *)

Definition dquote : ascii := "034"%char.
Definition backslash : ascii := "092"%char.

Definition hex_digit (n : nat) : ascii :=
  if (n <? 10)%nat then byte_of (48 + n) else byte_of (87 + n).

(** The bytes json.Marshal copies as they are: printable ASCII other than
    the double quote, the backslash and the HTML characters [< > &]. *)
Definition htmlSafe (c : ascii) : bool :=
  (32 <=? code c)%nat
  && negb (existsb (Nat.eqb (code c)) [34; 92; 60; 62; 38]%nat).

(** The escapes of json.Marshal for one byte below 0x80; bytes from 0x80
    on are taken to be part of well-formed UTF-8 text and are copied. *)
Definition json_escape (c : ascii) : string :=
  if (128 <=? code c)%nat then String c EmptyString
  else if htmlSafe c then String c EmptyString
  else if Ascii.eqb c dquote || Ascii.eqb c backslash then
    String backslash (String c EmptyString)
  else if (code c =? 10)%nat then String backslash "n"
  else if (code c =? 13)%nat then String backslash "r"
  else if (code c =? 9)%nat then String backslash "t"
  else
    String backslash
      (String "u" (String "0" (String "0"
         (String (hex_digit (code c / 16))
            (String (hex_digit (code c mod 16)) EmptyString))))).

Fixpoint json_escape_all (s : string) : string :=
  match s with
  | EmptyString => EmptyString
  | String c rest => json_escape c ++ json_escape_all rest
  end.

Definition json_string (s : string) : string :=
  String dquote (json_escape_all s ++ String dquote EmptyString).

Record errorMessage : Type := mkErrorMessage {
  Error : string  (* `json:"error"` *)
}.

Definition json_Marshal (m : errorMessage) : string :=
  "{" ++ json_string "error" ++ ":" ++ json_string (Error m) ++ "}".

Definition errorResponse (statusCode : Z) (message : string)
  : http_Response :=
  let m := mkErrorMessage message in
  let b := json_Marshal m in
  mkResponse statusCode ∅ (Some b).

(** ** The dispatcher *)

Definition endpointIDFromRequest (r : http_Request) : result string :=
  let endpointID := Header_Get (Header r) "x-piko-endpoint" in
  if negb (String.eqb endpointID EmptyString) then Ok endpointID
  else
    let host := Host r in
    if negb (String.eqb host EmptyString) && strings_Contains host "." then
      (* If a host is given and contains a separator, use the bottom-level
         domain as the endpoint ID. *)
      index0 (strings_Split host ".")
    else Ok EmptyString.

(** What a run of Proxy.Request does besides returning: the lines it
    logs and the calls it makes to the local and to the remote proxy. *)
Inductive event : Type :=
| LogWarn (msg : string)
| LogDebug (msg : string)
| LocalRequest (endpointID : string) (r : http_Request)
| RemoteRequest (endpointID : string) (r : http_Request).

Section Dispatcher.

(** context.Context is passed through to the sub-proxies unread. *)
Variable Context_ : Type.

(** localProxy.Request and remoteProxy.Request are not part of the sources
    at hand: a sub-proxy is any function that returns a Go pair of
    a response pointer and an error, [None] being nil. *)
Definition sub_proxy : Type :=
  Context_ -> string -> http_Request -> option http_Response * option error.

Variable local remote : sub_proxy.

(** The mapping of a sub-proxy error other than endpoint-not-found to a
    response, which Request repeats after each attempt. *)
Definition upstream_error (err : error) : http_Response * list event :=
  if errors_Is err DeadlineExceeded then
    (errorResponse StatusGatewayTimeout "endpoint timeout",
     [LogWarn "request: endpoint timeout"])
  else
    (errorResponse StatusServiceUnavailable "endpoint unreachable",
     [LogWarn "request: endpoint unreachable"]).

Definition Request (ctx : Context_) (r : http_Request)
  : result (option http_Response * list event) :=
  (* Whether the request was forwarded from another Piko node. *)
  let forwarded :=
    String.eqb (Header_Get (Header r) "x-piko-forward") "true" in
  bind (endpointIDFromRequest r) (fun endpointID =>
  if String.eqb endpointID EmptyString then
    Ok (Some (errorResponse StatusBadRequest "missing piko endpoint id"),
        [LogWarn "request: missing endpoint id"])
  else
    (* Attempt to send to an endpoint connected to the local node. *)
    let '(resp, err) := local ctx endpointID r in
    let tr := [LocalRequest endpointID r] in
    match err with
    | None => Ok (resp, (tr ++ [LogDebug "request: forwarded to local conn"])%list)
    | Some err =>
        if negb (errors_Is err errEndpointNotFound) then
          let '(resp, log) := upstream_error err in
          Ok (Some resp, (tr ++ log)%list)
        else if forwarded then
          (* If the request is from another Piko node though we don't have
             a connection for the endpoint, we don't forward again but
             return an error. *)
          Ok (Some (errorResponse StatusServiceUnavailable
                      "endpoint not found"),
              (tr ++ [LogWarn "request: endpoint not found"])%list)
        else
          (* Set the 'x-piko-forward' before forwarding to a remote node. *)
          let r := set_Header (Header_Set "x-piko-forward" "true" (Header r))
                     r in
          (* Attempt to send the request to a Piko node with a connection
             for the endpoint. *)
          let '(resp, err) := remote ctx endpointID r in
          let tr := (tr ++ [RemoteRequest endpointID r])%list in
          match err with
          | None => Ok (resp, (tr ++ [LogDebug "request: forwarded to remote"])%list)
          | Some err =>
              if negb (errors_Is err errEndpointNotFound) then
                let '(resp, log) := upstream_error err in
                Ok (Some resp, (tr ++ log)%list)
              else
                Ok (Some (errorResponse StatusServiceUnavailable
                            "endpoint not found"),
                    (tr ++ [LogWarn "request: endpoint not found"])%list)
          end
    end).

End Dispatcher.

(** ** Specification vocabulary *)

(** Whether the byte [c] occurs in [s]. *)
Fixpoint has_byte (c : ascii) (s : string) : bool :=
  match s with
  | EmptyString => false
  | String a rest => Ascii.eqb a c || has_byte c rest
  end.

(** The substring of [s] up to the first [c]. *)
Fixpoint up_to_first (c : ascii) (s : string) : string :=
  match s with
  | EmptyString => EmptyString
  | String a rest =>
      if Ascii.eqb a c then EmptyString else String a (up_to_first c rest)
  end.

(** The endpoint ID as the spec derives it: the header when it is not
    empty, else the first label of a dotted Host, else empty. *)
Definition endpoint_id_spec (r : http_Request) : string :=
  match Header r !! "X-Piko-Endpoint" with
  | Some (v :: _) =>
      if String.eqb v EmptyString then
        if has_byte "." (Host r) then up_to_first "." (Host r)
        else EmptyString
      else v
  | _ =>
      if has_byte "." (Host r) then up_to_first "." (Host r)
      else EmptyString
  end.

(** The JSON object [{"error":"<message>"}], written out byte by byte for
    a message without characters that JSON escapes. *)
Definition error_body (message : string) : string :=
  String "{" (String dquote ("error" ++
    String dquote (String ":" (String dquote (message ++
      String dquote (String "}" EmptyString)))))).

(** Whether Request called the remote proxy. *)
Definition is_remote_call (e : event) : bool :=
  match e with
  | RemoteRequest _ _ => true
  | _ => false
  end.

(** The messages of the responses Request makes up itself. *)
Definition error_messages : list string :=
  ["missing piko endpoint id"; "endpoint timeout"; "endpoint unreachable";
   "endpoint not found"].

(** A response Request makes up itself: status 400, 503 or 504 and a
    body, not nil, that holds the JSON object with the error message. *)
Definition synthesized (resp : http_Response) : Prop :=
  (StatusCode resp = 400 \/ StatusCode resp = 503 \/ StatusCode resp = 504)
  /\ exists message,
       In message error_messages /\ Body resp = Some (error_body message).

(** The Go convention for a sub-proxy: a nil error comes with a response
    that is not nil. *)
Definition responds_or_fails {Context_ : Type} (p : sub_proxy Context_)
  : Prop :=
  forall ctx endpointID r,
    snd (p ctx endpointID r) = None -> fst (p ctx endpointID r) <> None.

(** Two sub-proxies and two requests to try the dispatcher on. *)
Definition not_found_proxy : sub_proxy unit :=
  fun _ _ _ => (None, Some errEndpointNotFound).

Definition upstream_200 : http_Response := mkResponse 200 ∅ (Some "ok").

Definition ok_proxy : sub_proxy unit :=
  fun _ _ _ => (Some upstream_200, None).

Definition forwarded_request : http_Request :=
  mkRequest "" "GET" "/"
    (<["X-Piko-Forward" := ["true"]]> (<["X-Piko-Endpoint" := ["e"]]> ∅)).

Definition plain_request : http_Request :=
  mkRequest "e.piko.example.com" "GET" "/" ∅.

(** The error at the end of a chain of errors wrapped with %w. *)
Fixpoint cause (err : error) : error :=
  match err with
  | wrapError _ inner => cause inner
  | _ => err
  end.

(** Two sub-proxies that return the same responses and fail on the same
    calls, with errors of the same cause, however each wraps them. *)
Definition same_cause {Context_ : Type} (p q : sub_proxy Context_) : Prop :=
  forall ctx endpointID r,
    fst (p ctx endpointID r) = fst (q ctx endpointID r)
    /\ option_map cause (snd (p ctx endpointID r))
       = option_map cause (snd (q ctx endpointID r)).

(** A sub-proxy that reports endpoint-not-found wrapped twice. *)
Definition wrapping_proxy : sub_proxy unit :=
  fun _ _ _ =>
    (None, Some (wrapError "local" (wrapError "conn" errEndpointNotFound))).

End Proxy.

Module Rpc.

(** ** Errors

    [ErrStreamClosed], context.Canceled and context.DeadlineExceeded are
    sentinels; [errorString] is the value of an errors.New or of a
    fmt.Errorf without %w, [wrapError] of a fmt.Errorf with %w. *)
Inductive error : Type :=
| ErrStreamClosed
| Canceled
| DeadlineExceeded
| errorString (msg : string)
| wrapError (msg : string) (err : error).

(** ** Messages *)

(** Modelled from the spec: the declarations of [header] and [flags] are
    not part of the sources at hand; the spec gives a 16-bit flag word
    with bit 0 Response and bit 1 ErrNotSupported. *)
Definition flagResponse : Z := Z.shiftl 1 0.
Definition flagErrNotSupported : Z := Z.shiftl 1 1.

Definition SetResponse (f : Z) : Z := Z.lor f flagResponse.
Definition SetErrNotSupported (f : Z) : Z := Z.lor f flagErrNotSupported.
Definition Response (f : Z) : bool := negb (Z.land f flagResponse =? 0).
Definition ErrNotSupported (f : Z) : bool :=
  negb (Z.land f flagErrNotSupported =? 0).

Record header : Type := mkHeader {
  RPCType : Z;
  ID : Z;
  Flags : Z
}.

(** A nil payload is the empty payload. *)
Record message : Type := mkMessage {
  Header : header;
  Payload : list Byte.byte
}.

(** Modelled from the spec: the declaration of Handler is not part of the
    sources at hand; Find gives the handler function registered for an RPC
    type, if there is one. *)
Definition HandlerFunc : Type := list Byte.byte -> list Byte.byte.

Definition Find (h : gmap Z HandlerFunc) (rpcType : Z) : option HandlerFunc :=
  h !! rpcType.

(** ** The stream *)

(** What the stream does to the outside: lines written to the logger and
    calls of handler functions. *)
Inductive event : Type :=
| LogWarn (msg : string) (rpcType message_id : Z)
| LogDebug (msg : string) (err : error)
| HandlerCall (rpcType : Z) (payload : list Byte.byte).

(** The underlying connection: how often Close was called on it, and what
    Close returns. *)
Record Conn : Type := mkConn {
  closes : nat;
  close_err : option error
}.

(** [writeCh] holds the messages queued for the writer (capacity 64);
    [responseHandlers] the buffer of each response channel (capacity 1);
    [shutdownCh] whether the shutdown channel is closed. *)
Record stream : Type := mkStream {
  conn : Conn;
  handler : gmap Z HandlerFunc;
  nextMessageID : Z;
  writeCh : list message;
  responseHandlers : gmap Z (list message);
  shutdownCh : bool;
  shutdownErr : option error;
  shutdown : bool;
  log : list event
}.

Definition writeCh_cap : nat := 64.

Definition NewStream (c : Conn) (h : gmap Z HandlerFunc) : stream :=
  mkStream c h 0 [] ∅ false None false [].

Definition set_conn (c : Conn) (s : stream) : stream :=
  mkStream c (handler s) (nextMessageID s) (writeCh s) (responseHandlers s)
           (shutdownCh s) (shutdownErr s) (shutdown s) (log s).
Definition set_nextMessageID (n : Z) (s : stream) : stream :=
  mkStream (conn s) (handler s) n (writeCh s) (responseHandlers s)
           (shutdownCh s) (shutdownErr s) (shutdown s) (log s).
Definition set_writeCh (w : list message) (s : stream) : stream :=
  mkStream (conn s) (handler s) (nextMessageID s) w (responseHandlers s)
           (shutdownCh s) (shutdownErr s) (shutdown s) (log s).
Definition set_responseHandlers (r : gmap Z (list message)) (s : stream)
  : stream :=
  mkStream (conn s) (handler s) (nextMessageID s) (writeCh s) r
           (shutdownCh s) (shutdownErr s) (shutdown s) (log s).
Definition set_shutdownCh (b : bool) (s : stream) : stream :=
  mkStream (conn s) (handler s) (nextMessageID s) (writeCh s)
           (responseHandlers s) b (shutdownErr s) (shutdown s) (log s).
Definition set_shutdownErr (e : option error) (s : stream) : stream :=
  mkStream (conn s) (handler s) (nextMessageID s) (writeCh s)
           (responseHandlers s) (shutdownCh s) e (shutdown s) (log s).
Definition set_shutdown (b : bool) (s : stream) : stream :=
  mkStream (conn s) (handler s) (nextMessageID s) (writeCh s)
           (responseHandlers s) (shutdownCh s) (shutdownErr s) b (log s).
Definition logger (e : event) (s : stream) : stream :=
  mkStream (conn s) (handler s) (nextMessageID s) (writeCh s)
           (responseHandlers s) (shutdownCh s) (shutdownErr s) (shutdown s)
           (log s ++ [e]).

(** atomic.Bool.CompareAndSwap *)
Definition CompareAndSwap (old new : bool) (s : stream) : bool * stream :=
  if Bool.eqb (shutdown s) old then (true, set_shutdown new s)
  else (false, s).

(** [close(s.shutdownCh)]: closing a closed channel panics. *)
Definition close_shutdownCh (s : stream) : result stream :=
  if shutdownCh s then Panic "close of closed channel"
  else Ok (set_shutdownCh true s).

Definition conn_Close (s : stream) : option error * stream :=
  (close_err (conn s),
   set_conn (mkConn (S (closes (conn s))) (close_err (conn s))) s).

Definition closeStream (err : error) (s : stream)
  : result (option error * stream) :=
  (* Only shutdown once. *)
  let '(swapped, s) := CompareAndSwap false true s in
  if negb swapped then Ok (Some ErrStreamClosed, s)
  else
    let s := set_shutdownErr (Some ErrStreamClosed) s in
    (* Close to cancel pending RPC requests. *)
    bind (close_shutdownCh s) (fun s =>
    let '(cerr, s) := conn_Close s in
    match cerr with
    | Some e => Ok (Some (wrapError "close conn" e), s)
    | None => Ok (None, logger (LogDebug "stream closed" err) s)
    end).

Definition Close (s : stream) : result (option error * stream) :=
  closeStream ErrStreamClosed s.

(** The places that shut the stream down, with the error each of them
    hands to closeStream: Close, the reader on a read or decode error, the
    writer on a write error, and recoverPanic. *)
Inductive trigger : Type :=
| ByClose
| ByReadError (err : error)
| ByDecodeError (err : error)
| ByWriteError (err : error)
| ByPanic (prefix recovered : string).

Definition trigger_error (t : trigger) : error :=
  match t with
  | ByClose => ErrStreamClosed
  | ByReadError err => wrapError "read" err
  | ByDecodeError err => wrapError "decode header" err
  | ByWriteError err => wrapError "write" err
  | ByPanic prefix r => errorString ("panic: " ++ prefix ++ ": " ++ r)
  end.

Definition fire (t : trigger) (s : stream) : result (option error * stream) :=
  closeStream (trigger_error t) s.

(** A run of shutdown triggers one after the other, with what each one
    returned. *)
Fixpoint fire_all (ts : list trigger) (s : stream)
  : result (list (option error) * stream) :=
  match ts with
  | [] => Ok ([], s)
  | t :: ts =>
      bind (fire t s) (fun '(r, s) =>
      bind (fire_all ts s) (fun '(rs, s) => Ok (r :: rs, s)))
  end.

(** ** select

    A select statement takes one of its ready cases; which one, when
    several are ready, is up to the scheduler.  The functions below take
    the case as an argument and return [None] when that case is not
    ready: with no ready case the goroutine stays blocked. *)
Inductive send_case : Type :=
| CaseWrite      (* case s.writeCh <- msg *)
| CaseShutdown.  (* case <-s.shutdownCh *)

Definition send_ready (c : send_case) (s : stream) : bool :=
  match c with
  | CaseWrite => (length (writeCh s) <? writeCh_cap)%nat
  | CaseShutdown => shutdownCh s
  end.

Definition select_send (msg : message) (c : send_case) (s : stream)
  : option stream :=
  if send_ready c s then
    match c with
    | CaseWrite => Some (set_writeCh (writeCh s ++ [msg]) s)
    | CaseShutdown => Some s
    end
  else None.

Definition handleRequest (m : message) (c : send_case) (s : stream)
  : option stream :=
  match Find (handler s) (RPCType (Header m)) with
  | None =>
      (* If no handler is found, send a 'not supported' error to the
         client. *)
      let s := logger (LogWarn "rpc type not supported"
                         (RPCType (Header m)) (ID (Header m))) s in
      let flags := 0 in
      let flags := SetResponse flags in
      let flags := SetErrNotSupported flags in
      let msg :=
        mkMessage (mkHeader (RPCType (Header m)) (ID (Header m)) flags) [] in
      select_send msg c s
  | Some handlerFunc =>
      let resp := handlerFunc (Payload m) in
      let s := logger (HandlerCall (RPCType (Header m)) (Payload m)) s in
      let flags := 0 in
      let flags := SetResponse flags in
      let msg :=
        mkMessage (mkHeader (RPCType (Header m)) (ID (Header m)) flags) resp in
      select_send msg c s
  end.

(** ** RPC

    The two select statements of RPC.  [ctx_err] is ctx.Err(): [None]
    while the context is live. *)
Inductive rpc_case : Type :=
| CaseProceed    (* case s.writeCh <- msg, resp. case resp := <-ch *)
| CaseStreamDown (* case <-s.shutdownCh *)
| CaseCtxDone.   (* case <-ctx.Done() *)

Definition uint64_wrap (z : Z) : Z := z mod 2 ^ 64.

(** The first half of RPC: take a message ID, register the response
    channel and queue the request.  Returns the message ID to wait for,
    or the error RPC returns. *)
Definition RPC_send (ctx_err : option error) (rpcType : Z) (req : list Byte.byte)
    (c : rpc_case) (s : stream) : option ((Z + option error) * stream) :=
  let id := uint64_wrap (nextMessageID s + 1) in
  let s := set_nextMessageID id s in
  let msg := mkMessage (mkHeader rpcType id 0) req in
  let s := set_responseHandlers (<[id := []]> (responseHandlers s)) s in
  let unregister (s : stream) :=
    set_responseHandlers (delete id (responseHandlers s)) s in
  match c with
  | CaseProceed =>
      if (length (writeCh s) <? writeCh_cap)%nat
      then Some (inl id, set_writeCh (writeCh s ++ [msg]) s)
      else None
  | CaseStreamDown =>
      if shutdownCh s then Some (inr (shutdownErr s), unregister s)
      else None
  | CaseCtxDone =>
      match ctx_err with
      | Some e => Some (inr (Some e), unregister s)
      | None => None
      end
  end.

(** The second half of RPC: wait for the response, the shutdown of the
    stream or the end of the context, and unregister the channel. *)
Definition RPC_wait (ctx_err : option error) (id : Z) (c : rpc_case)
    (s : stream) : option ((list Byte.byte * option error) * stream) :=
  let unregister (s : stream) :=
    set_responseHandlers (delete id (responseHandlers s)) s in
  match c with
  | CaseProceed =>
      match responseHandlers s !! id with
      | Some (resp :: _) =>
          if ErrNotSupported (Flags (Header resp))
          then Some (([], Some (errorString "not supported")), unregister s)
          else Some ((Payload resp, None), unregister s)
      | _ => None
      end
  | CaseStreamDown =>
      if shutdownCh s then Some (([], shutdownErr s), unregister s)
      else None
  | CaseCtxDone =>
      match ctx_err with
      | Some e => Some (([], Some e), unregister s)
      | None => None
      end
  end.

(** ** closeStream step by step

    The shutdown triggers run in goroutines of their own (the reader, the
    writer, the callers of Close), so calls of closeStream overlap.  A call
    is at one of the statements of closeStream, or has returned; a step
    runs the statement it is at.  [Panicked] is the run-time panic of
    closing a closed channel. *)
Inductive pc : Type :=
| AtCompareAndSwap  (* if !s.shutdown.CompareAndSwap(false, true) *)
| AtStoreErr        (* s.shutdownErr = ErrStreamClosed *)
| AtCloseCh         (* close(s.shutdownCh) *)
| AtConnClose       (* if err := s.conn.Close(); err != nil *)
| AtLog             (* s.logger.Debug("stream closed", ...) *)
| Returned (r : option error)
| Panicked (msg : string).

Definition closeStream_step (err : error) (p : pc) (s : stream)
  : pc * stream :=
  match p with
  | AtCompareAndSwap =>
      let '(swapped, s) := CompareAndSwap false true s in
      if negb swapped then (Returned (Some ErrStreamClosed), s)
      else (AtStoreErr, s)
  | AtStoreErr => (AtCloseCh, set_shutdownErr (Some ErrStreamClosed) s)
  | AtCloseCh =>
      match close_shutdownCh s with
      | Ok s => (AtConnClose, s)
      | Panic msg => (Panicked msg, s)
      end
  | AtConnClose =>
      let '(cerr, s) := conn_Close s in
      match cerr with
      | Some e => (Returned (Some (wrapError "close conn" e)), s)
      | None => (AtLog, s)
      end
  | AtLog => (Returned None, logger (LogDebug "stream closed" err) s)
  | Returned r => (Returned r, s)
  | Panicked msg => (Panicked msg, s)
  end.

(** The calls in progress, each with the error it was handed, and the
    stream they share.  A schedule names the call that takes the next
    step. *)
Definition step_call (i : nat) (st : list (error * pc) * stream)
  : list (error * pc) * stream :=
  match fst st !! i with
  | Some (err, p) =>
      (<[i := (err, fst (closeStream_step err p (snd st)))]> (fst st),
       snd (closeStream_step err p (snd st)))
  | None => st
  end.

Definition interleave (schedule : list nat)
    (st : list (error * pc) * stream) : list (error * pc) * stream :=
  fold_left (fun st i => step_call i st) schedule st.

Definition start_calls (ts : list trigger) : list (error * pc) :=
  map (fun t => (trigger_error t, AtCompareAndSwap)) ts.

(** A call that won the CompareAndSwap and does the shutdown. *)
Definition does_shutdown (c : error * pc) : bool :=
  match snd c with
  | AtCompareAndSwap => false
  | Returned (Some ErrStreamClosed) => false
  | _ => true
  end.

Definition has_returned (c : error * pc) : bool :=
  match snd c with
  | Returned _ => true
  | _ => false
  end.

Definition has_panicked (c : error * pc) : bool :=
  match snd c with
  | Panicked _ => true
  | _ => false
  end.

Definition shutdown_calls (calls : list (error * pc)) : nat :=
  length (List.filter does_shutdown calls).

(** What holds of the shared stream while a call is at [snd c]; [c0] is
    how often the connection had been closed when the stream was made. *)
Definition call_ok (c0 : nat) (s : stream) (c : error * pc) : Prop :=
  match snd c with
  | AtCompareAndSwap => True
  | AtStoreErr | AtCloseCh =>
      shutdown s = true /\ shutdownCh s = false /\ closes (conn s) = c0
  | AtConnClose =>
      shutdown s = true /\ shutdownCh s = true /\ closes (conn s) = c0
  | Returned (Some ErrStreamClosed) => shutdown s = true
  | AtLog | Returned _ =>
      shutdown s = true /\ shutdownCh s = true /\ closes (conn s) = S c0
  | Panicked _ => False
  end.

(** The invariant of the overlapping calls: each call is consistent with
    the stream, and a call does the shutdown exactly when the flag is
    set. *)
Definition calls_inv (c0 : nat) (st : list (error * pc) * stream) : Prop :=
  Forall (call_ok c0 (snd st)) (fst st)
  /\ shutdown_calls (fst st) = (if shutdown (snd st) then 1 else 0)%nat
  /\ (shutdown (snd st) = false ->
      shutdownCh (snd st) = false /\ closes (conn (snd st)) = c0).

(** handleResponse: hand a response to the channel registered for its
    message ID, if there still is one; the send blocks while the channel,
    of capacity 1, is full. *)
Definition handleResponse (m : message) (s : stream) : option stream :=
  match responseHandlers s !! ID (Header m) with
  | Some [] =>
      Some (set_responseHandlers
              (<[ID (Header m) := [m]]> (responseHandlers s)) s)
  | Some (_ :: _) => None
  | None => Some s
  end.

(** ** Streams and messages to try the functions on *)

Definition conn0 : Conn := mkConn 0 None.

(** A request of an RPC type (7) nobody handles, with message ID 42. *)
Definition request7 : message :=
  mkMessage (mkHeader 7 42 0) [Byte.x01].

Definition state_of (r : result (option error * stream)) (s : stream)
  : stream :=
  match r with
  | Ok (_, s') => s'
  | Panic _ => s
  end.

(** A new stream on which 64 requests were queued while the writer did
    not run, so that the write channel is full. *)
Definition queue_request (s : stream) : stream :=
  match RPC_send None 1 [] CaseProceed s with
  | Some (_, s') => s'
  | None => s
  end.

Definition busy_stream : stream :=
  Nat.iter 64 queue_request (NewStream conn0 ∅).

(** The same stream after Close. *)
Definition closed_busy_stream : stream :=
  state_of (Close busy_stream) busy_stream.

(** A new stream with one request in flight (message ID 1), shut down by
    the reader on a read error. *)
Definition read_error : error := errorString "unexpected EOF".



(** The messages a run of handleRequest added to the write channel. *)
Definition sent (before after : stream) : list message :=
  drop (length (writeCh before)) (writeCh after).

Definition is_handler_call (e : event) : bool :=
  match e with
  | HandlerCall _ _ => true
  | _ => false
  end.

(** The handler calls a run added to the log. *)
Definition handler_calls (before after : stream) : list event :=
  filter (fun e => is_handler_call e = true)
         (drop (length (log before)) (log after)).

(** ** RPC as a whole

    [between] is what the other goroutines (the reader, the writer, other
    callers) do to the stream between the two select statements of RPC;
    [ctx_err1] and [ctx_err2] are ctx.Err() at the two of them. *)
Definition RPC (ctx_err1 ctx_err2 : option error) (rpcType : Z)
    (req : list Byte.byte) (c1 : rpc_case) (between : stream -> stream)
    (c2 : rpc_case) (s : stream)
  : option ((list Byte.byte * option error) * stream) :=
  match RPC_send ctx_err1 rpcType req c1 s with
  | None => None
  | Some (inr err, s) => Some (([], err), s)
  | Some (inl id, s) => RPC_wait ctx_err2 id c2 (between s)
  end.

(** ** The reader and the writer *)

(** The debug lines of the reader and the writer: RPC type, response
    flag, message ID and payload length of a message. *)
Inductive debug_line : Type :=
| MessageReceived (rpcType : Z) (response : bool) (message_id : Z) (len : nat)
| MessageSent (rpcType : Z) (response : bool) (message_id : Z) (len : nat).

(** What s.conn.ReadMessage and header.Decode gave the reader: an error
    of one of them, or a frame with its header decoded. *)
Inductive read_outcome : Type :=
| ReadError (err : error)
| DecodeError (err : error)
| Frame (m : message).

(** What a turn of the reader's loop leaves: the stream, the request it
    started a handleRequest goroutine for, whether the loop goes on, and
    the debug lines. *)
Record reader_turn_result : Type := mkReaderTurn {
  r_stream : stream;
  r_spawned : option message;
  r_goes_on : bool;
  r_debug : list debug_line
}.

(** One turn of the loop of reader; [None] while the reader is blocked in
    handing a response to a channel that is full.  A panic is what the
    deferred recoverPanic gets. *)
Definition reader_turn (r : read_outcome) (s : stream)
  : option (result reader_turn_result) :=
  match r with
  | ReadError err =>
      Some (bind (closeStream (wrapError "read" err) s)
                 (fun '(_, s) => Ok (mkReaderTurn s None false [])))
  | DecodeError err =>
      Some (bind (closeStream (wrapError "decode header" err) s)
                 (fun '(_, s) => Ok (mkReaderTurn s None false [])))
  | Frame m =>
      let dbg :=
        [MessageReceived (RPCType (Header m)) (Response (Flags (Header m)))
                         (ID (Header m)) (length (Payload m))] in
      if Response (Flags (Header m)) then
        match handleResponse m s with
        | Some s => Some (Ok (mkReaderTurn s None (negb (shutdownCh s)) dbg))
        | None => None
        end
      else
        (* Spawn a new goroutine for each request to avoid blocking the
           read loop. *)
        Some (Ok (mkReaderTurn s (Some m) (negb (shutdownCh s)) dbg))
  end.

(** The errors of the calls write makes on the connection: NextWriter,
    the Write of the header, the Write of the payload and the Close of
    the writer. *)
Record conn_writes : Type := mkConnWrites {
  NextWriter_err : option error;
  Write_header_err : option error;
  Write_payload_err : option error;
  Close_writer_err : option error
}.

Inductive conn_call : Type :=
| NextWriter
| WriteHeader (h : header)
| WritePayload (payload : list Byte.byte)
| CloseWriter.

(** write: the error it returns and the calls it made on the connection. *)
Definition write (req : message) (o : conn_writes)
  : option error * list conn_call :=
  match NextWriter_err o with
  | Some err => (Some err, [NextWriter])
  | None =>
      match Write_header_err o with
      | Some err => (Some err, [NextWriter; WriteHeader (Header req)])
      | None =>
          if (0 <? length (Payload req))%nat then
            match Write_payload_err o with
            | Some err =>
                (Some err, [NextWriter; WriteHeader (Header req);
                            WritePayload (Payload req)])
            | None =>
                (Close_writer_err o,
                 [NextWriter; WriteHeader (Header req);
                  WritePayload (Payload req); CloseWriter])
            end
          else
            (Close_writer_err o,
             [NextWriter; WriteHeader (Header req); CloseWriter])
      end
  end.

Inductive writer_case : Type :=
| CaseTake   (* case req := <-s.writeCh *)
| CaseStop.  (* case <-s.shutdownCh *)

(** What a turn of the writer's loop leaves: the stream, the message it
    took from the write channel, the error of its write, the calls made
    on the connection, whether the loop goes on, and the debug lines. *)
Record writer_turn_result : Type := mkWriterTurn {
  w_stream : stream;
  w_taken : option message;
  w_err : option error;
  w_calls : list conn_call;
  w_goes_on : bool;
  w_debug : list debug_line
}.

(** One turn of the loop of writer; [None] when the case is not ready. *)
Definition writer_turn (c : writer_case) (o : conn_writes) (s : stream)
  : option (result writer_turn_result) :=
  match c with
  | CaseTake =>
      match writeCh s with
      | [] => None
      | req :: rest =>
          let s := set_writeCh rest s in
          match write req o with
          | (Some err, calls) =>
              Some (bind (closeStream (wrapError "write" err) s)
                         (fun '(_, s) =>
                            Ok (mkWriterTurn s (Some req) (Some err) calls
                                             false [])))
          | (None, calls) =>
              Some (Ok (mkWriterTurn s (Some req) None calls true
                          [MessageSent (RPCType (Header req))
                             (Response (Flags (Header req)))
                             (ID (Header req)) (length (Payload req))]))
          end
      end
  | CaseStop =>
      if shutdownCh s then Some (Ok (mkWriterTurn s None None [] false []))
      else None
  end.

(** ** Runs of a stream

    What the goroutines around a stream do to it, one after the other.  A
    thing that is blocked, or that panics, leaves the stream as it is. *)
Inductive stream_op : Type :=
| OpRPCSend (ctx_err : option error) (rpcType : Z) (req : list Byte.byte)
            (c : rpc_case)
| OpRPCWait (ctx_err : option error) (id : Z) (c : rpc_case)
| OpReaderTurn (r : read_outcome)
| OpHandleRequest (m : message) (c : send_case)
| OpWriterTurn (c : writer_case) (o : conn_writes)
| OpTrigger (t : trigger).

Definition apply_op (o : stream_op) (s : stream) : stream :=
  match o with
  | OpRPCSend ctx_err rpcType req c =>
      match RPC_send ctx_err rpcType req c s with
      | Some (_, s') => s'
      | None => s
      end
  | OpRPCWait ctx_err id c =>
      match RPC_wait ctx_err id c s with
      | Some (_, s') => s'
      | None => s
      end
  | OpReaderTurn r =>
      match reader_turn r s with
      | Some (Ok t) => r_stream t
      | _ => s
      end
  | OpHandleRequest m c =>
      match handleRequest m c s with
      | Some s' => s'
      | None => s
      end
  | OpWriterTurn c o =>
      match writer_turn c o s with
      | Some (Ok t) => w_stream t
      | _ => s
      end
  | OpTrigger t => state_of (fire t s) s
  end.

Definition run_ops (ops : list stream_op) (s : stream) : stream :=
  fold_left (fun s o => apply_op o s) ops s.

(** The messages the writer has written without error in a run, in the
    order of the writes, and the messages whose write failed. *)
Definition written_by (o : stream_op) (s : stream) : list message :=
  match o with
  | OpWriterTurn c w =>
      match writer_turn c w s with
      | Some (Ok t) =>
          match w_taken t, w_err t with
          | Some m, None => [m]
          | _, _ => []
          end
      | _ => []
      end
  | _ => []
  end.

Definition lost_by (o : stream_op) (s : stream) : list message :=
  match o with
  | OpWriterTurn c w =>
      match writer_turn c w s with
      | Some (Ok t) =>
          match w_taken t, w_err t with
          | Some m, Some _ => [m]
          | _, _ => []
          end
      | _ => []
      end
  | _ => []
  end.

(** The messages a step puts on the write channel. *)
Definition queued_by (o : stream_op) (s : stream) : list message :=
  match o with
  | OpRPCSend _ _ _ _ | OpHandleRequest _ _ =>
      drop (length (writeCh s)) (writeCh (apply_op o s))
  | _ => []
  end.

Fixpoint collect (f : stream_op -> stream -> list message)
    (ops : list stream_op) (s : stream) : list message :=
  match ops with
  | [] => []
  | o :: ops => (f o s ++ collect f ops (apply_op o s))%list
  end.

(** The stream is consistent about its shutdown: the shutdown channel is
    closed only after the flag was set. *)
Definition shutdown_consistent (s : stream) : Prop :=
  shutdown s = false -> shutdownCh s = false.

(** The response channels registered are those of message IDs that were
    handed out. *)
Definition slots_handed_out (s : stream) : Prop :=
  0 <= nextMessageID s
  /\ forall id, is_Some (responseHandlers s !! id) ->
                1 <= id <= nextMessageID s.


End Rpc.

(** * Properties of the cluster state *)

Module ClusterSpec.
Import Cluster.

(** ** Runs on small states *)

Example two_adds_and_a_remove :
  exists s,
    run [CallAddLocalEndpoint "e"; CallAddLocalEndpoint "e";
         CallRemoveLocalEndpoint "e"] (NewState node0) = Ok s
    /\ local_listeners "e" s = 1
    /\ remove_warnings s = 0.
Proof. eexists. split; [reflexivity|]. split; reflexivity. Qed.

Example remove_on_fresh_state_warns :
  exists s,
    RemoveLocalEndpoint "e" (NewState node0) = Ok s
    /\ local_listeners "e" s = 0
    /\ trace s = [Warn "remove local endpoint: endpoint not found"].
Proof. eexists. split; [reflexivity|]. split; reflexivity. Qed.

Example local_node_is_not_removed :
  fst (RemoveNode "local" (NewState node0)) = false
  /\ fst (UpdateRemoteStatus "local" NodeStatusLeft (NewState node0)) = false.
Proof. split; reflexivity. Qed.

Example increment_wraps_at_int_max : int_add int_max 1 = int_min.
Proof. reflexivity. Qed.

Example lookup_skips_zero_count :
  LookupEndpoint "e" (NewState node0)
    [mkNode "remote" NodeStatusActive "" "" (Some (<["e" := 0]> ∅))] = None
  /\ LookupEndpoint "e" (NewState node0)
       [mkNode "remote" NodeStatusActive "" "" (Some (<["e" := 2]> ∅))]
     = Some (mkNode "remote" NodeStatusActive "" "" (Some (<["e" := 2]> ∅))).
Proof. split; reflexivity. Qed.

(** ** Arithmetic of [int] *)

Lemma int_wrap_in_range z : in_int z -> int_wrap z = z.
Proof.
  unfold in_int, int_wrap, int_min, int_max. intros H.
  rewrite Z.mod_small; lia.
Qed.

Lemma int_add_exact a b : in_int (a + b) -> int_add a b = a + b.
Proof. apply int_wrap_in_range. Qed.

Lemma int_sub_exact a b : in_int (a - b) -> int_sub a b = a - b.
Proof. apply int_wrap_in_range. Qed.

Lemma in_int_between z : 0 <= z <= int_max -> in_int z.
Proof. unfold in_int, int_min, int_max. lia. Qed.

(** ** The effect of the two local calls on the local node *)

Lemma make_if_nil_table n : make_if_nil (Endpoints n) = table n.
Proof. reflexivity. Qed.

(** What AddLocalEndpoint does when the local node is there: the table of
    the local node gets the incremented count under [e], everything else
    stays. *)
Lemma AddLocalEndpoint_effect e s n :
  nodes s !! localID s = Some n ->
  exists s',
    AddLocalEndpoint e s = Ok s'
    /\ localID s' = localID s
    /\ nodes s' =
       <[localID s :=
           set_Endpoints
             (Some (<[e := int_add (map_get (table n) e) 1]> (table n))) n]>
         (nodes s)
    /\ List.filter is_remove_warning (trace s')
       = List.filter is_remove_warning (trace s).
Proof.
  intros Hn. unfold AddLocalEndpoint. rewrite Hn.
  eexists. split; [reflexivity|]. cbn. repeat split.
  rewrite List.filter_app.
  assert (Hnil : forall l : list nat,
    List.filter is_remove_warning
      (map (fun f => Notify f e
         (map_get (<[e:=int_add (map_get (make_if_nil (Endpoints n)) e) 1]>
            (make_if_nil (Endpoints n))) e)) l) = []).
  { induction l; cbn; auto. }
  rewrite Hnil. apply app_nil_r.
Qed.
Lemma filter_notify_nil e v (l : list nat) :
  List.filter is_remove_warning (map (fun f => Notify f e v) l) = [].
Proof. induction l; cbn; auto. Qed.

(** What RemoveLocalEndpoint does when the local node is there. *)
Lemma RemoveLocalEndpoint_effect e s n :
  nodes s !! localID s = Some n ->
  exists s',
    RemoveLocalEndpoint e s = Ok s'
    /\ localID s' = localID s
    /\ nodes s' =
       <[localID s :=
           set_Endpoints (Some (table_after_remove e (table n))) n]>
         (nodes s)
    /\ List.filter is_remove_warning (trace s')
       = (List.filter is_remove_warning (trace s)
          ++ if remove_finds_nothing e (table n)
             then [Warn "remove local endpoint: endpoint not found"]
             else [])%list.
Proof.
  intros Hn. unfold RemoveLocalEndpoint, table_after_remove,
    remove_finds_nothing. rewrite Hn, make_if_nil_table.
  destruct (table n !! e) as [c|] eqn:Hc.
  - destruct (c =? 0) eqn:Hz.
    + eexists. split; [reflexivity|]. cbn. repeat split.
      now rewrite List.filter_app.
    + eexists. split; [reflexivity|]. cbn. repeat split.
      rewrite List.filter_app, filter_notify_nil. reflexivity.
  - eexists. split; [reflexivity|]. cbn. repeat split.
    now rewrite List.filter_app.
Qed.

(** ** The local node stays *)

Lemma local_active_NewState localNode :
  local_active (NewState localNode)
  /\ LocalID (NewState localNode) = ID localNode.
Proof.
  split; [|reflexivity].
  exists (set_Status NodeStatusActive localNode).
  unfold LocalID. cbn. rewrite lookup_insert_eq. auto.
Qed.

Ltac remote_case s id :=
  let Hid := fresh "Hid" in
  let E := fresh "E" in
  destruct (String.eqb id (localID s)) eqn:Hid;
  [ | destruct (nodes s !! id) ];
  (eexists _, _; split; [reflexivity|]; cbn;
   rewrite ?(lookup_insert_ne _ id (localID s)),
           ?(lookup_delete_ne _ id (localID s))
     by (intros E; rewrite E, String.eqb_refl in Hid; discriminate);
   eauto).

Lemma exec_keeps_local c s n :
  nodes s !! localID s = Some n ->
  exists s' n',
    exec c s = Ok s' /\ localID s' = localID s
    /\ nodes s' !! localID s' = Some n'
    /\ ID n' = ID n /\ Status n' = Status n.
Proof.
  intros Hn. destruct c as [node|id|id st|id e l|id e|e|e|f]; cbn [exec].
  - unfold AddNode. remote_case s (ID node).
  - unfold RemoveNode. remote_case s id.
  - unfold UpdateRemoteStatus. remote_case s id.
  - unfold UpdateRemoteEndpoint. remote_case s id.
  - unfold RemoveRemoteEndpoint. remote_case s id.
  - destruct (AddLocalEndpoint_effect e s n Hn) as (s' & -> & Hid & Hns & _).
    eexists _, _. split; [reflexivity|]. split; [exact Hid|].
    rewrite Hid, Hns, lookup_insert_eq. auto.
  - destruct (RemoveLocalEndpoint_effect e s n Hn) as (s' & -> & Hid & Hns & _).
    eexists _, _. split; [reflexivity|]. split; [exact Hid|].
    rewrite Hid, Hns, lookup_insert_eq. auto.
  - eexists _, _. split; [reflexivity|]. cbn. eauto.
Qed.

Lemma run_keeps_local cs : forall s n,
  nodes s !! localID s = Some n ->
  exists s' n',
    run cs s = Ok s' /\ localID s' = localID s
    /\ nodes s' !! localID s' = Some n'
    /\ ID n' = ID n /\ Status n' = Status n.
Proof.
  induction cs as [|c cs IH]; intros s n Hn; cbn [run].
  - eauto 10.
  - destruct (exec_keeps_local c s n Hn) as (s1 & n1 & -> & Hid & Hn1 & Hi & Hs).
    cbn [bind].
    destruct (IH s1 n1 Hn1) as (s2 & n2 & Hrun & Hid2 & Hn2 & Hi2 & Hs2).
    exists s2, n2. repeat split; try congruence.
Qed.

(** C4: in every state reached from NewState by a sequence of calls of
    the mutation API (AddNode, RemoveNode, UpdateRemoteStatus,
    UpdateRemoteEndpoint, RemoveRemoteEndpoint, AddLocalEndpoint,
    RemoveLocalEndpoint, and OnLocalEndpointUpdate too), no call panics,
    LocalID() is the ID of the node the state was made from, and the node
    map holds under that ID a node with that ID whose status is Active. *)
Theorem local_node_present_and_active (localNode : Node) (cs : list call) :
  exists s n,
    run cs (NewState localNode) = Ok s
    /\ LocalID s = ID localNode
    /\ nodes s !! LocalID s = Some n
    /\ ID n = LocalID s
    /\ Status n = NodeStatusActive.
Proof.
  destruct (local_active_NewState localNode) as [(n0 & Hn0 & Hi0 & Hs0) Hid0].
  destruct (run_keeps_local cs (NewState localNode) n0 Hn0)
    as (s & n & Hrun & Hid & Hn & Hi & Hs).
  exists s, n. unfold LocalID in *. repeat split; try congruence.
Qed.

(** ** Counting local listeners *)

Lemma map_get_insert_eq (t : gmap string Z) k v : map_get (<[k := v]> t) k = v.
Proof. unfold map_get. now rewrite lookup_insert_eq. Qed.

Lemma local_listeners_eq e s n :
  nodes s !! localID s = Some n -> local_listeners e s = map_get (table n) e.
Proof. unfold local_listeners. now intros ->. Qed.

Lemma local_call_inv e c :
  is_add e c || is_remove e c = true ->
  c = CallAddLocalEndpoint e \/ c = CallRemoveLocalEndpoint e.
Proof.
  destruct c; cbn; try discriminate; rewrite orb_false_r || idtac;
    intros H; apply String.eqb_eq in H; subst; auto.
Qed.

Lemma is_add_remove_excl e :
  is_add e (CallAddLocalEndpoint e) = true
  /\ is_remove e (CallAddLocalEndpoint e) = false
  /\ is_add e (CallRemoveLocalEndpoint e) = false
  /\ is_remove e (CallRemoveLocalEndpoint e) = true.
Proof. cbn. now rewrite String.eqb_refl. Qed.

(** One local call: the count moves as [running_count] says, and a
    warning is logged exactly by a remove that finds the count at 0. *)
Lemma local_call_step e c s n :
  nodes s !! localID s = Some n ->
  is_add e c || is_remove e c = true ->
  0 <= local_listeners e s < int_max ->
  exists s' n',
    exec c s = Ok s'
    /\ nodes s' !! localID s' = Some n'
    /\ local_listeners e s' = running_count e (local_listeners e s) [c]
    /\ remove_warnings s'
       = remove_warnings s
         + (if is_remove e c && (local_listeners e s =? 0) then 1 else 0).
Proof.
  intros Hn Hc Hrange.
  destruct (is_add_remove_excl e) as (Haa & Har & Hra & Hrr).
  rewrite (local_listeners_eq e s n Hn) in *.
  destruct (local_call_inv e c Hc) as [-> | ->]; cbn [exec running_count].
  - rewrite Haa, Har. cbn [andb].
    destruct (AddLocalEndpoint_effect e s n Hn) as (s' & -> & Hid & Hns & Hw).
    eexists _, _. split; [reflexivity|].
    assert (Hn' : nodes s' !! localID s' = Some (set_Endpoints
              (Some (<[e := int_add (map_get (table n) e) 1]> (table n))) n))
      by (rewrite Hid, Hns; apply lookup_insert_eq).
    split; [exact Hn'|]. split.
    + rewrite (local_listeners_eq e s' _ Hn'). cbn [table set_Endpoints Endpoints].
      rewrite map_get_insert_eq. apply int_add_exact, in_int_between. lia.
    + unfold remove_warnings. rewrite Hw. lia.
  - rewrite Hra, Hrr. cbn [andb].
    destruct (RemoveLocalEndpoint_effect e s n Hn) as (s' & -> & Hid & Hns & Hw).
    eexists _, _. split; [reflexivity|].
    assert (Hn' : nodes s' !! localID s' = Some (set_Endpoints
              (Some (table_after_remove e (table n))) n))
      by (rewrite Hid, Hns; apply lookup_insert_eq).
    split; [exact Hn'|].
    rewrite (local_listeners_eq e s' _ Hn'). cbn [table set_Endpoints Endpoints].
    unfold remove_warnings. rewrite Hw, List.length_app.
    unfold table_after_remove, remove_finds_nothing, map_get in *.
    destruct (table n !! e) as [c|] eqn:Hlk.
    + destruct (Z.eqb_spec c 0) as [->|Hnz].
      * rewrite Hlk. cbn. split; lia.
      * destruct (Z.ltb_spec 1 c).
        -- rewrite lookup_insert_eq, int_sub_exact
             by (apply in_int_between; lia).
           cbn. split; lia.
        -- rewrite lookup_delete_eq. cbn. split; lia.
    + rewrite Hlk. cbn. split; lia.
Qed.

Lemma running_count_nonneg e cs : forall c,
  0 <= c -> 0 <= running_count e c cs.
Proof.
  induction cs as [|call cs IH]; intros c Hc; cbn; [exact Hc|].
  destruct (is_add e call); [apply IH; lia|].
  destruct (is_remove e call); apply IH; lia.
Qed.

Lemma calls_cons e c cs :
  is_add e c || is_remove e c = true ->
  calls_adding e (c :: cs) - calls_removing e (c :: cs)
  = calls_adding e cs - calls_removing e cs
    + (if is_add e c then 1 else -1).
Proof.
  intros Hc. unfold calls_adding, calls_removing. cbn [List.filter].
  destruct (is_add_remove_excl e) as (Haa & Har & Hra & Hrr).
  destruct (local_call_inv e c Hc) as [-> | ->].
  - rewrite Haa, Har. cbn [length]. lia.
  - rewrite Hra, Hrr. cbn [length]. lia.
Qed.

Lemma run_local_calls e cs : forall s n,
  nodes s !! localID s = Some n ->
  only_local e cs = true ->
  0 <= local_listeners e s ->
  local_listeners e s + Z.of_nat (length cs) <= int_max ->
  exists s',
    run cs s = Ok s'
    /\ local_listeners e s' = running_count e (local_listeners e s) cs
    /\ local_listeners e s' - local_listeners e s
       = calls_adding e cs - calls_removing e cs
         + (remove_warnings s' - remove_warnings s).
Proof.
  induction cs as [|c cs IH]; intros s n Hn Hcs H0 Hmax.
  - exists s. cbn. repeat split; unfold calls_adding, calls_removing; cbn; lia.
  - cbn [only_local forallb] in Hcs. apply andb_true_iff in Hcs as [Hc Hcs].
    cbn [length] in Hmax.
    destruct (local_call_step e c s n Hn Hc ltac:(lia))
      as (s1 & n1 & Hex & Hn1 & Hl1 & Hw1).
    cbn [running_count] in Hl1.
    assert (H1 : 0 <= local_listeners e s1
                 /\ local_listeners e s1 <= local_listeners e s + 1).
    { rewrite Hl1. destruct (is_add e c); [lia|].
      destruct (is_remove e c); lia. }
    destruct (IH s1 n1 Hn1 Hcs ltac:(lia) ltac:(lia))
      as (s2 & Hrun & Hl2 & Hd2).
    exists s2. cbn [run]. rewrite Hex. cbn [bind]. split; [exact Hrun|].
    split.
    + rewrite Hl2, Hl1. cbn [running_count].
      destruct (is_add e c); [reflexivity|].
      destruct (is_remove e c); reflexivity.
    + rewrite (calls_cons e c cs Hc).
      destruct (is_add_remove_excl e) as (Haa & Har & Hra & Hrr).
      destruct (local_call_inv e c Hc) as [-> | ->].
      * rewrite Haa, Har in *. cbn [andb] in Hw1. lia.
      * rewrite Hra, Hrr in *. cbn [andb] in Hw1.
        destruct (Z.eqb_spec (local_listeners e s) 0); lia.
Qed.

(** C5, as stated, fails: after RemoveLocalEndpoint(e) then
    AddLocalEndpoint(e) on a fresh state the local count of e is 1, while
    the number of adds minus the number of removes, clamped at 0, is 0. *)
Lemma clamped_difference_counterexample :
  only_local "e" [CallRemoveLocalEndpoint "e"; CallAddLocalEndpoint "e"] = true
  /\ map_get (table node0) "e" = 0
  /\ (exists s,
        run [CallRemoveLocalEndpoint "e"; CallAddLocalEndpoint "e"]
            (NewState node0) = Ok s
        /\ local_listeners "e" s = 1)
  /\ Z.max 0
       (calls_adding "e"
          [CallRemoveLocalEndpoint "e"; CallAddLocalEndpoint "e"]
        - calls_removing "e"
            [CallRemoveLocalEndpoint "e"; CallAddLocalEndpoint "e"]) = 0.
Proof.
  split; [reflexivity|]. split; [reflexivity|]. split; [|reflexivity].
  eexists. split; [reflexivity|]. vm_compute. reflexivity.
Qed.

(** C5 (amended): for every endpoint ID e and every sequence of
    AddLocalEndpoint(e) and RemoveLocalEndpoint(e) calls (fewer than 2^63 of
    them) on the state made from a local node without listeners for e, no
    call panics and the local count of e, absence read as 0, is the count
    kept call by call: up by one on each add, down by one on each remove
    but not below 0.  It equals the number of adds minus the number of
    removes plus the number of removes that found the count at 0, each of
    which logged a warning and changed nothing; it is never negative, and
    it is the plain difference when no warning was logged. *)
Theorem local_listeners_running_count
    (localNode : Node) (e : string) (cs : list call) :
  map_get (table localNode) e = 0 ->
  only_local e cs = true ->
  Z.of_nat (length cs) <= int_max ->
  exists s,
    run cs (NewState localNode) = Ok s
    /\ local_listeners e s = running_count e 0 cs
    /\ local_listeners e s
       = calls_adding e cs - calls_removing e cs + remove_warnings s
    /\ 0 <= local_listeners e s
    /\ (remove_warnings s = 0 ->
        local_listeners e s
        = Z.max 0 (calls_adding e cs - calls_removing e cs)).
Proof.
  intros H0 Hcs Hlen.
  destruct (local_active_NewState localNode) as [(n0 & Hn0 & _) _].
  unfold LocalID in Hn0.
  assert (Hl0 : local_listeners e (NewState localNode) = 0).
  { unfold local_listeners. cbn. rewrite lookup_insert_eq. exact H0. }
  destruct (run_local_calls e cs (NewState localNode) n0 Hn0 Hcs)
    as (s & Hrun & Hl & Hd); [lia | lia |].
  rewrite Hl0 in *.
  assert (Hw0 : remove_warnings (NewState localNode) = 0) by reflexivity.
  assert (Hnn := running_count_nonneg e cs 0 ltac:(lia)).
  exists s. repeat split; try lia. exact Hrun.
Qed.

Lemma local_listeners_running_count_witness :
  (map_get (table node0) "e" = 0
   /\ only_local "e" [CallAddLocalEndpoint "e"; CallAddLocalEndpoint "e";
                      CallRemoveLocalEndpoint "e"] = true
   /\ Z.of_nat 3 <= int_max)
  /\ exists s,
       run [CallAddLocalEndpoint "e"; CallAddLocalEndpoint "e";
            CallRemoveLocalEndpoint "e"] (NewState node0) = Ok s
       /\ local_listeners "e" s = 1.
Proof.
  assert (H1 : map_get (table node0) "e" = 0) by reflexivity.
  assert (H2 : only_local "e" [CallAddLocalEndpoint "e";
             CallAddLocalEndpoint "e"; CallRemoveLocalEndpoint "e"] = true)
    by reflexivity.
  assert (H3 : Z.of_nat 3 <= int_max) by (vm_compute; discriminate).
  split; [auto|].
  destruct (local_listeners_running_count node0 "e" _ H1 H2 H3)
    as (s & Hrun & Hl & _).
  exists s. split; [exact Hrun|]. rewrite Hl. reflexivity.
Defined.

(** ** Add then remove *)

Lemma table_add_then_remove e (t : gmap string Z) :
  t !! e = None \/ (exists c, t !! e = Some c /\ 0 < c < int_max) ->
  table_after_remove e (<[e := int_add (map_get t e) 1]> t) = t.
Proof.
  unfold table_after_remove, map_get. rewrite lookup_insert_eq.
  intros [Hnone | (c & Hc & Hrange)].
  - rewrite Hnone. change (int_add 0 1) with 1. cbn.
    rewrite delete_insert_eq. now apply delete_id.
  - rewrite Hc, int_add_exact by (apply in_int_between; lia).
    destruct (Z.eqb_spec (c + 1) 0); [lia|].
    destruct (Z.ltb_spec 1 (c + 1)); [|lia].
    rewrite int_sub_exact by (apply in_int_between; lia).
    rewrite insert_insert_eq. replace (c + 1 - 1) with c by lia.
    now apply insert_id.
Qed.

(** C8, as stated, fails: a positive count is not always restored.  On a
    state whose local node holds the largest int (2^63 - 1) as the count
    of e, AddLocalEndpoint(e) wraps the count around to the smallest int;
    RemoveLocalEndpoint(e) then finds a count that is neither 0 nor above
    1 and deletes the key, so e is absent from the table afterwards. *)
Lemma add_then_remove_at_max_counterexample :
  nodes (NewState node_full) !! localID (NewState node_full) = Some node_full
  /\ table node_full !! "e" = Some int_max
  /\ (0 <? int_max) = true
  /\ exists s1 s2 n2,
       AddLocalEndpoint "e" (NewState node_full) = Ok s1
       /\ local_listeners "e" s1 = int_min
       /\ RemoveLocalEndpoint "e" s1 = Ok s2
       /\ nodes s2 !! localID s2 = Some n2
       /\ table n2 !! "e" = None.
Proof.
  split; [reflexivity|]. split; [reflexivity|]. split; [reflexivity|].
  eexists _, _, _. split; [reflexivity|]. split; [vm_compute; reflexivity|].
  split; [vm_compute; reflexivity|]. split; [vm_compute; reflexivity|].
  vm_compute. reflexivity.
Qed.

(** C8: from any cluster state (with its local node), AddLocalEndpoint(e)
    immediately followed by RemoveLocalEndpoint(e) panics in neither call
    and leaves the endpoint table of the local node as it was: the key e
    is absent again if it was absent, and its count is restored if it was
    positive (and below the largest int, so that the increment does not
    wrap around).  The other nodes are as before. *)
Theorem add_then_remove_restores_table (s : State) (e : string) (n : Node) :
  nodes s !! localID s = Some n ->
  table n !! e = None \/ (exists c, table n !! e = Some c /\ 0 < c < int_max) ->
  exists s1 s2 n2,
    AddLocalEndpoint e s = Ok s1
    /\ RemoveLocalEndpoint e s1 = Ok s2
    /\ localID s2 = localID s
    /\ nodes s2 !! localID s2 = Some n2
    /\ table n2 = table n
    /\ table n2 !! e = table n !! e
    /\ ID n2 = ID n /\ Status n2 = Status n
    /\ forall id, id <> localID s -> nodes s2 !! id = nodes s !! id.
Proof.
  intros Hn He.
  destruct (AddLocalEndpoint_effect e s n Hn) as (s1 & Hadd & Hid1 & Hns1 & _).
  set (n1 := set_Endpoints
               (Some (<[e := int_add (map_get (table n) e) 1]> (table n))) n)
    in *.
  assert (Hn1 : nodes s1 !! localID s1 = Some n1)
    by (rewrite Hid1, Hns1; apply lookup_insert_eq).
  destruct (RemoveLocalEndpoint_effect e s1 n1 Hn1)
    as (s2 & Hrem & Hid2 & Hns2 & _).
  assert (Ht : table_after_remove e (table n1) = table n)
    by (apply table_add_then_remove; exact He).
  rewrite Ht in Hns2.
  exists s1, s2, (set_Endpoints (Some (table n)) n1).
  split; [exact Hadd|]. split; [exact Hrem|].
  split; [congruence|]. split.
  { rewrite Hid2, Hns2. apply lookup_insert_eq. }
  split; [reflexivity|]. split; [reflexivity|].
  split; [reflexivity|]. split; [reflexivity|].
  intros id Hne. rewrite Hns2, Hns1, Hid1.
  rewrite !lookup_insert_ne by congruence. reflexivity.
Qed.

Lemma add_then_remove_restores_table_witness :
  exists s1 s2 n2,
    AddLocalEndpoint "e" (NewState node0) = Ok s1
    /\ RemoveLocalEndpoint "e" s1 = Ok s2
    /\ localID s2 = localID (NewState node0)
    /\ nodes s2 !! localID s2 = Some n2
    /\ table n2 = table (set_Status NodeStatusActive node0)
    /\ table n2 !! "e" = table (set_Status NodeStatusActive node0) !! "e"
    /\ ID n2 = ID (set_Status NodeStatusActive node0)
    /\ Status n2 = Status (set_Status NodeStatusActive node0)
    /\ forall id, id <> localID (NewState node0) ->
                  nodes s2 !! id = nodes (NewState node0) !! id.
Proof.
  apply (add_then_remove_restores_table (NewState node0) "e"
           (set_Status NodeStatusActive node0)).
  - reflexivity.
  - left. reflexivity.
Defined.

(** ** Zero counts *)




(** LookupEndpoint only returns a remote node with a positive count. *)
Lemma LookupEndpoint_positive e s order node :
  LookupEndpoint e s order = Some node ->
  ID node <> localID s /\ 0 < map_get (table node) e.
Proof.
  unfold LookupEndpoint. induction order as [|n0 rest IH]; cbn; [discriminate|].
  destruct (String.eqb_spec (ID n0) (localID s)); [exact IH|].
  unfold map_get.
  destruct (table n0 !! e) as [l|] eqn:Hl; [|exact IH].
  destruct (Z.ltb_spec 0 l); [|exact IH].
  intros [= <-]. rewrite Hl. auto.
Qed.





(** ** Looking up an endpoint *)

(** X2: LookupEndpoint returns a node of the iteration that is not the local
    node and has a positive listener count for the endpoint; it returns
    none only when the iteration has no such node. *)
Theorem LookupEndpoint_finds_remote_listener
    (e : string) (s : State) (order : list Node) :
  match LookupEndpoint e s order with
  | Some node =>
      In node order /\ ID node <> localID s /\ 0 < map_get (table node) e
  | None =>
      forall node, In node order ->
        ID node = localID s \/ map_get (table node) e <= 0
  end.
Proof.
  unfold LookupEndpoint. induction order as [|n0 rest IH]; cbn.
  - intros node [].
  - destruct (String.eqb_spec (ID n0) (localID s)) as [Hloc|Hrem].
    + destruct (LookupEndpoint_range (localID s) e rest).
      * intuition auto.
      * intros node [<-|Hin]; auto.
    + unfold map_get in *. destruct (table n0 !! e) as [l|] eqn:Hl.
      * destruct (Z.ltb_spec 0 l).
        -- rewrite Hl. auto.
        -- destruct (LookupEndpoint_range (localID s) e rest).
           ++ intuition auto.
           ++ intros node [<-|Hin]; [rewrite Hl; auto|auto].
      * destruct (LookupEndpoint_range (localID s) e rest).
        -- intuition auto.
        -- intros node [<-|Hin]; [rewrite Hl; right; lia|auto].
Qed.

(** ** Adding and removing a node *)

(** X3: AddNode of a node that is new to the cluster, followed by RemoveNode
    of its ID, succeeds and leaves the node map and the gauges as they
    were. *)
Theorem add_then_remove_node (s : State) (node : Node) :
  ID node <> localID s ->
  nodes s !! ID node = None ->
  fst (RemoveNode (ID node) (AddNode node s)) = true
  /\ nodes (snd (RemoveNode (ID node) (AddNode node s))) = nodes s
  /\ (forall st, metrics (snd (RemoveNode (ID node) (AddNode node s))) st
                 = metrics s st)
  /\ trace (snd (RemoveNode (ID node) (AddNode node s))) = trace s.
Proof.
  intros Hne Hnew. unfold AddNode, RemoveNode.
  destruct (String.eqb_spec (ID node) (localID s)); [contradiction|].
  rewrite Hnew. cbn.
  destruct (String.eqb_spec (ID node) (localID s)); [contradiction|].
  rewrite lookup_insert_eq. cbn. repeat split.
  - rewrite delete_insert_eq. now apply delete_id.
  - intros st. unfold gauge_add.
    destruct (NodeStatus_eqb st (Status node)); lia.
Qed.

Lemma add_then_remove_node_witness :
  fst (RemoveNode (ID node1) (AddNode node1 (NewState node0))) = true
  /\ nodes (snd (RemoveNode (ID node1) (AddNode node1 (NewState node0))))
     = nodes (NewState node0)
  /\ (forall st,
        metrics (snd (RemoveNode (ID node1) (AddNode node1 (NewState node0))))
          st
        = metrics (NewState node0) st)
  /\ trace (snd (RemoveNode (ID node1) (AddNode node1 (NewState node0))))
     = trace (NewState node0).
Proof.
  apply (add_then_remove_node (NewState node0) node1).
  - discriminate.
  - reflexivity.
Defined.

(** ** Subscribers of local endpoint updates *)















(** ** Nodes and their IDs *)

Lemma exec_keys c s n :
  nodes s !! localID s = Some n ->
  keys_are_ids s ->
  exists s', exec c s = Ok s' /\ keys_are_ids s'.
Proof.
  intros Hn Hkeys.
  assert (Hins : forall id node (m : gmap string Node),
            ID node = id -> (forall k x, m !! k = Some x -> ID x = k) ->
            forall k x, <[id := node]> m !! k = Some x -> ID x = k).
  { intros id node m Hid Hm k x. rewrite lookup_insert_Some.
    intros [[<- <-]|[_ Hk]]; eauto. }
  destruct c as [node|id|id st|id e l|id e|e|e|f]; cbn [exec].
  - unfold AddNode. destruct (String.eqb (ID node) (localID s));
      [eexists; split; [reflexivity|exact Hkeys]|].
    eexists. split; [reflexivity|].
    destruct (nodes s !! ID node); unfold keys_are_ids; cbn; apply Hins;
      auto; exact Hkeys.
  - unfold RemoveNode. destruct (String.eqb id (localID s));
      [eexists; split; [reflexivity|exact Hkeys]|].
    destruct (nodes s !! id); (eexists; split; [reflexivity|]);
      [|exact Hkeys].
    intros k x. cbn. rewrite lookup_delete_Some. intros [_ Hk].
    now apply Hkeys.
  - unfold UpdateRemoteStatus. destruct (String.eqb id (localID s));
      [eexists; split; [reflexivity|exact Hkeys]|].
    destruct (nodes s !! id) as [x|] eqn:Hx;
      (eexists; split; [reflexivity|]); [|exact Hkeys].
    unfold keys_are_ids. cbn. apply Hins; [apply (Hkeys _ _ Hx)|exact Hkeys].
  - unfold UpdateRemoteEndpoint. destruct (String.eqb id (localID s));
      [eexists; split; [reflexivity|exact Hkeys]|].
    destruct (nodes s !! id) as [x|] eqn:Hx;
      (eexists; split; [reflexivity|]); [|exact Hkeys].
    unfold keys_are_ids. cbn. apply Hins; [apply (Hkeys _ _ Hx)|exact Hkeys].
  - unfold RemoveRemoteEndpoint. destruct (String.eqb id (localID s));
      [eexists; split; [reflexivity|exact Hkeys]|].
    destruct (nodes s !! id) as [x|] eqn:Hx;
      (eexists; split; [reflexivity|]); [|exact Hkeys].
    unfold keys_are_ids. cbn. apply Hins; [apply (Hkeys _ _ Hx)|exact Hkeys].
  - destruct (AddLocalEndpoint_effect e s n Hn) as (s' & -> & Hid & Hns & _).
    eexists. split; [reflexivity|]. unfold keys_are_ids. rewrite Hns.
    apply Hins; [apply (Hkeys _ _ Hn)|exact Hkeys].
  - destruct (RemoveLocalEndpoint_effect e s n Hn) as (s' & -> & Hid & Hns & _).
    eexists. split; [reflexivity|]. unfold keys_are_ids. rewrite Hns.
    apply Hins; [apply (Hkeys _ _ Hn)|exact Hkeys].
  - eexists. split; [reflexivity|exact Hkeys].
Qed.

Lemma run_keys cs : forall s n,
  nodes s !! localID s = Some n ->
  keys_are_ids s ->
  exists s' n',
    run cs s = Ok s' /\ keys_are_ids s'
    /\ localID s' = localID s /\ nodes s' !! localID s' = Some n'.
Proof.
  induction cs as [|c cs IH]; intros s n Hn Hkeys; cbn [run]; [eauto 10|].
  destruct (exec_keys c s n Hn Hkeys) as (s1 & Hex & Hkeys1).
  destruct (exec_keeps_local c s n Hn) as (s1' & n1 & Hex' & Hid & Hn1 & _).
  rewrite Hex in *. injection Hex' as <-. cbn [bind].
  destruct (IH s1 n1 Hn1 Hkeys1) as (s2 & n2 & Hrun & Hkeys2 & Hid2 & Hn2).
  exists s2, n2. repeat split; auto. congruence.
Qed.

Lemma keys_NewState localNode : keys_are_ids (NewState localNode).
Proof.
  intros k n. cbn. rewrite lookup_insert_Some, lookup_empty.
  intros [[<- <-]|[_ [=]]]. reflexivity.
Qed.

Lemma ids_of_iteration s order :
  keys_are_ids s -> iteration s order ->
  map ID order ≡ₚ (map_to_list (nodes s)).*1.
Proof.
  intros Hkeys Hit. unfold iteration in Hit.
  change (map ID order) with (ID <$> order). rewrite Hit.
  rewrite <- list_fmap_compose.
  assert (Heq : (ID ∘ snd) <$> map_to_list (nodes s)
                = (map_to_list (nodes s)).*1); [|now rewrite Heq].
  apply list_fmap_ext. intros i [k n] Hkn. cbn.
  apply Hkeys. apply elem_of_map_to_list.
  eapply list_elem_of_lookup_2. exact Hkn.
Qed.

(** X6: in every state reached from NewState by calls of the mutation
    API, every node is stored under its own ID, so Node(id) returns a node
    whose ID is id or nothing; and whatever the order in which Nodes
    ranges over the node map, the nodes it returns have pairwise distinct
    IDs, the local ID among them. *)
Theorem node_ids_are_unique (localNode : Node) (cs : list call) :
  exists s,
    run cs (NewState localNode) = Ok s
    /\ (forall id n, Node_ id s = Some n -> ID n = id)
    /\ (forall order,
          iteration s order ->
          NoDup (map ID (Nodes s order))
          /\ In (LocalID s) (map ID (Nodes s order))).
Proof.
  destruct (local_active_NewState localNode) as [(n0 & Hn0 & _) _].
  destruct (run_keys cs (NewState localNode) n0 Hn0 (keys_NewState localNode))
    as (s & n & Hrun & Hkeys & Hid & Hn).
  exists s. split; [exact Hrun|]. split; [exact Hkeys|].
  intros order Hit. unfold Nodes. rewrite map_id.
  pose proof (ids_of_iteration s order Hkeys Hit) as Hperm. split.
  - rewrite Hperm. apply NoDup_fst_map_to_list.
  - apply list_elem_of_In. rewrite Hperm.
    apply list_elem_of_fmap. exists (localID s, n). split; [reflexivity|].
    now apply elem_of_map_to_list.
Qed.

(** ** Gauges *)

Lemma NodeStatus_eqb_sym a b : NodeStatus_eqb a b = NodeStatus_eqb b a.
Proof. destruct a, b; reflexivity. Qed.

Lemma NodeStatus_eqb_refl a : NodeStatus_eqb a a = true.
Proof. destruct a; reflexivity. Qed.

Lemma count_insert_fresh st (m : gmap string Node) i x :
  m !! i = None ->
  count_status st (<[i := x]> m)
  = count_status st m + one_if (NodeStatus_eqb (Status x) st).
Proof.
  intros Hi. unfold count_status, one_if. rewrite map_filter_insert.
  case_decide as HP; cbn in HP.
  - rewrite HP, map_size_insert_None.
    + rewrite Nat2Z.inj_succ. lia.
    + apply map_lookup_filter_None_2. now left.
  - destruct (NodeStatus_eqb (Status x) st); [congruence|].
    rewrite delete_id by exact Hi. lia.
Qed.

Lemma count_delete st (m : gmap string Node) i x :
  m !! i = Some x ->
  count_status st m
  = count_status st (delete i m) + one_if (NodeStatus_eqb (Status x) st).
Proof.
  intros Hi. rewrite <- (insert_delete_id m i x Hi) at 1.
  apply count_insert_fresh, lookup_delete_eq.
Qed.

Lemma count_insert_existing st (m : gmap string Node) i x old :
  m !! i = Some old ->
  count_status st (<[i := x]> m) + one_if (NodeStatus_eqb (Status old) st)
  = count_status st m + one_if (NodeStatus_eqb (Status x) st).
Proof.
  intros Hi. rewrite <- (insert_delete_eq m i x).
  rewrite (count_insert_fresh st (delete i m) i x) by apply lookup_delete_eq.
  rewrite (count_delete st m i old Hi). lia.
Qed.

Lemma gauge_add_at d status (m : Metrics) st :
  gauge_add d status m st = m st + d * one_if (NodeStatus_eqb status st).
Proof.
  unfold gauge_add, one_if. rewrite (NodeStatus_eqb_sym st status).
  destruct (NodeStatus_eqb status st); lia.
Qed.

Lemma gauges_NewState localNode : gauges_match (NewState localNode).
Proof.
  intros st. unfold nodes_with_status. fold (count_status st
    (nodes (NewState localNode))). cbn.
  rewrite count_insert_fresh by apply lookup_empty.
  rewrite gauge_add_at. unfold count_status.
  rewrite map_filter_empty, map_size_empty. unfold NewMetrics, one_if.
  cbn [Status set_Status].
  destruct (NodeStatus_eqb NodeStatusActive st); cbn; lia.
Qed.

(** A call keeps the gauges equal to the node counts, provided an AddNode
    is not for an ID that is already in the cluster. *)
Lemma exec_gauges c s n :
  nodes s !! localID s = Some n ->
  gauges_match s ->
  adds_new_nodes_only [c] s = true ->
  exists s', exec c s = Ok s' /\ gauges_match s'.
Proof.
  intros Hn Hg Hnew.
  assert (Hg' : forall st, metrics s st = count_status st (nodes s))
    by exact Hg.
  assert (Hsame : forall (s' : State) i x old,
    metrics s' = metrics s -> nodes s' = <[i := x]> (nodes s) ->
    nodes s !! i = Some old -> Status x = Status old -> gauges_match s').
  { intros s' i x old Hm Hns Hold Hst st. unfold nodes_with_status.
    fold (count_status st (nodes s')). rewrite Hm, Hns, Hg'.
    pose proof (count_insert_existing st (nodes s) i x old Hold) as H.
    rewrite Hst in H. lia. }
  destruct c as [node|id|id st0|id e l|id e|e|e|f]; cbn [exec].
  - cbn [adds_new_nodes_only] in Hnew. unfold AddNode in *.
    destruct (String.eqb (ID node) (localID s));
      [eexists; split; [reflexivity|exact Hg]|].
    destruct (nodes s !! ID node) eqn:Hlk; [discriminate|].
    eexists. split; [reflexivity|]. intros st. unfold nodes_with_status.
    cbn. fold (count_status st (<[ID node := node]> (nodes s))).
    rewrite count_insert_fresh by exact Hlk.
    rewrite gauge_add_at, Hg'. lia.
  - unfold RemoveNode. destruct (String.eqb id (localID s));
      [eexists; split; [reflexivity|exact Hg]|].
    destruct (nodes s !! id) as [x|] eqn:Hx;
      (eexists; split; [reflexivity|]); [|exact Hg].
    intros st. unfold nodes_with_status. cbn.
    fold (count_status st (delete id (nodes s))).
    rewrite gauge_add_at, Hg', (count_delete st (nodes s) id x Hx). lia.
  - unfold UpdateRemoteStatus. destruct (String.eqb id (localID s));
      [eexists; split; [reflexivity|exact Hg]|].
    destruct (nodes s !! id) as [x|] eqn:Hx;
      (eexists; split; [reflexivity|]); [|exact Hg].
    intros st. unfold nodes_with_status. cbn.
    fold (count_status st (<[id := set_Status st0 x]> (nodes s))).
    rewrite !gauge_add_at, Hg'.
    pose proof (count_insert_existing st (nodes s) id
                  (set_Status st0 x) x Hx) as H.
    cbn [Status set_Status] in H. lia.
  - unfold UpdateRemoteEndpoint. destruct (String.eqb id (localID s));
      [eexists; split; [reflexivity|exact Hg]|].
    destruct (nodes s !! id) as [x|] eqn:Hx;
      (eexists; split; [reflexivity|]); [|exact Hg].
    eapply Hsame; [reflexivity|reflexivity|exact Hx|reflexivity].
  - unfold RemoveRemoteEndpoint. destruct (String.eqb id (localID s));
      [eexists; split; [reflexivity|exact Hg]|].
    destruct (nodes s !! id) as [x|] eqn:Hx;
      (eexists; split; [reflexivity|]); [|exact Hg].
    eapply Hsame; [reflexivity|reflexivity|exact Hx|reflexivity].
  - unfold AddLocalEndpoint. rewrite Hn. eexists. split; [reflexivity|].
    eapply Hsame; [reflexivity|reflexivity|exact Hn|reflexivity].
  - unfold RemoveLocalEndpoint. rewrite Hn.
    destruct (make_if_nil (Endpoints n) !! e) as [l|];
      [destruct (l =? 0)|];
      (eexists; split; [reflexivity|]);
      (eapply Hsame; [reflexivity|reflexivity|exact Hn|reflexivity]).
  - eexists. split; [reflexivity|exact Hg].
Qed.

Lemma run_gauges cs : forall s n,
  nodes s !! localID s = Some n ->
  gauges_match s ->
  adds_new_nodes_only cs s = true ->
  exists s', run cs s = Ok s' /\ gauges_match s'.
Proof.
  induction cs as [|c cs IH]; intros s n Hn Hg Hnew; cbn [run]; [eauto|].
  cbn [adds_new_nodes_only] in Hnew. apply andb_true_iff in Hnew as [Hc Hcs].
  destruct (exec_keeps_local c s n Hn) as (s1 & n1 & Hex & _ & Hn1 & _).
  rewrite Hex in Hcs.
  destruct (exec_gauges c s n Hn Hg) as (s1' & Hex' & Hg1).
  { cbn [adds_new_nodes_only]. rewrite Hc, Hex. reflexivity. }
  rewrite Hex in *. injection Hex' as <-. cbn [bind]. eauto.
Qed.

(** X7: in every state reached from NewState by calls of the mutation
    API in which AddNode is only called for an ID that is not yet in the
    cluster (or for the local ID, which it refuses), the gauge of each
    node status equals the number of nodes in the node map with that
    status. *)
Theorem gauges_count_the_nodes (localNode : Node) (cs : list call) :
  adds_new_nodes_only cs (NewState localNode) = true ->
  exists s,
    run cs (NewState localNode) = Ok s
    /\ forall status, metrics s status = nodes_with_status status s.
Proof.
  destruct (local_active_NewState localNode) as [(n0 & Hn0 & _) _].
  apply (run_gauges cs (NewState localNode) n0 Hn0 (gauges_NewState localNode)).
Qed.

Lemma gauges_count_the_nodes_witness :
  exists s,
    run [CallAddNode node1;
         CallUpdateRemoteStatus "remote" NodeStatusUnreachable;
         CallAddLocalEndpoint "e"; CallRemoveNode "remote"]
        (NewState node0) = Ok s
    /\ forall status, metrics s status = nodes_with_status status s.
Proof.
  apply (gauges_count_the_nodes node0
           [CallAddNode node1;
            CallUpdateRemoteStatus "remote" NodeStatusUnreachable;
            CallAddLocalEndpoint "e"; CallRemoveNode "remote"]).
  reflexivity.
Defined.

(** X8: AddNode for an ID that is already in the cluster (and is not the
    local ID) replaces the node, logs a warning and counts the new node
    in the gauge of its status without taking the replaced node out of
    its gauge: where the gauges equalled the node counts before, the gauge
    of the status of the replaced node is afterwards one above the number
    of nodes with that status, and the other gauges equal their counts. *)
Theorem AddNode_overwrite_inflates_gauge (s : State) (node old : Node) :
  gauges_match s ->
  ID node <> localID s ->
  nodes s !! ID node = Some old ->
  nodes (AddNode node s) = <[ID node := node]> (nodes s)
  /\ trace (AddNode node s)
     = (trace s ++ [Warn "add node: node already in cluster"])%list
  /\ forall status,
       metrics (AddNode node s) status
       = nodes_with_status status (AddNode node s)
         + one_if (NodeStatus_eqb (Status old) status).
Proof.
  intros Hg Hne Hold. unfold AddNode.
  destruct (String.eqb_spec (ID node) (localID s)); [contradiction|].
  rewrite Hold. cbn. split; [reflexivity|]. split; [reflexivity|].
  intros st. unfold nodes_with_status. cbn.
  fold (count_status st (<[ID node := node]> (nodes s))).
  rewrite gauge_add_at.
  assert (Hg' : metrics s st = count_status st (nodes s)) by apply Hg.
  pose proof (count_insert_existing st (nodes s) (ID node) node old Hold).
  lia.
Qed.

Lemma AddNode_overwrite_inflates_gauge_witness :
  nodes (AddNode node1 (AddNode node1 (NewState node0)))
  = <[ID node1 := node1]> (nodes (AddNode node1 (NewState node0)))
  /\ trace (AddNode node1 (AddNode node1 (NewState node0)))
     = (trace (AddNode node1 (NewState node0))
        ++ [Warn "add node: node already in cluster"])%list
  /\ forall status,
       metrics (AddNode node1 (AddNode node1 (NewState node0))) status
       = nodes_with_status status
           (AddNode node1 (AddNode node1 (NewState node0)))
         + one_if (NodeStatus_eqb (Status node1) status).
Proof.
  apply (AddNode_overwrite_inflates_gauge (AddNode node1 (NewState node0))
           node1 node1).
  - destruct (run_gauges [CallAddNode node1] (NewState node0)
                (set_Status NodeStatusActive node0) eq_refl
                (gauges_NewState node0) eq_refl) as (s' & Hrun & Hg).
    injection Hrun as <-. exact Hg.
  - discriminate.
  - reflexivity.
Defined.

(** ** Refused calls and untouched nodes *)

(** X9: RemoveNode, UpdateRemoteStatus, UpdateRemoteEndpoint and
    RemoveRemoteEndpoint return true exactly when the ID is that of a known
    node other than the local one.  When they return false, and when
    AddNode is handed a node with the local ID, the node map, the gauges
    and the subscribers are as before and one warning was logged. *)
Theorem refused_calls_change_nothing
    (s : State) (id e : string) (status : NodeStatus) (l : Z) (node : Node) :
  fst (RemoveNode id s) = is_remote id s
  /\ fst (UpdateRemoteStatus id status s) = is_remote id s
  /\ fst (UpdateRemoteEndpoint id e l s) = is_remote id s
  /\ fst (RemoveRemoteEndpoint id e s) = is_remote id s
  /\ forall s',
       (is_remote id s = false
        /\ In s' [snd (RemoveNode id s); snd (UpdateRemoteStatus id status s);
                  snd (UpdateRemoteEndpoint id e l s);
                  snd (RemoveRemoteEndpoint id e s)])
       \/ (ID node = localID s /\ s' = AddNode node s) ->
       nodes s' = nodes s
       /\ metrics s' = metrics s
       /\ localEndpointSubscribers s' = localEndpointSubscribers s
       /\ localID s' = localID s
       /\ exists msg, trace s' = (trace s ++ [Warn msg])%list.
Proof.
  unfold is_remote, RemoveNode, UpdateRemoteStatus, UpdateRemoteEndpoint,
    RemoveRemoteEndpoint, AddNode.
  destruct (String.eqb id (localID s)) eqn:Hid;
    destruct (nodes s !! id) eqn:Hlk; cbn [negb andb fst snd];
    (split; [reflexivity|]); (split; [reflexivity|]);
    (split; [reflexivity|]); (split; [reflexivity|]);
    intros s' [[Hrem Hin]|[Hloc ->]];
    try discriminate;
    try (apply String.eqb_eq in Hloc; rewrite Hloc; cbn; eauto 10; fail);
    cbn in Hin; destruct Hin as [<-|[<-|[<-|[<-|[]]]]]; cbn; eauto 10.
Qed.

(** ** Looking up what gossip stored *)

Lemma LookupEndpoint_none e s order :
  LookupEndpoint e s order = None ->
  forall node, In node order ->
    ID node = localID s \/ map_get (table node) e <= 0.
Proof.
  unfold LookupEndpoint. induction order as [|n0 rest IH]; cbn;
    [intros _ node []|].
  destruct (String.eqb_spec (ID n0) (localID s)) as [Hloc|Hrem].
  - intros Hnone node [<-|Hin]; auto.
  - unfold map_get in *. destruct (table n0 !! e) as [l|] eqn:Hl.
    + destruct (Z.ltb_spec 0 l); [discriminate|].
      intros Hnone node [<-|Hin]; [rewrite Hl|]; auto.
    + intros Hnone node [<-|Hin]; [rewrite Hl; right; lia|auto].
Qed.

Lemma LookupEndpoint_In e s order node :
  LookupEndpoint e s order = Some node -> In node order.
Proof.
  unfold LookupEndpoint. induction order as [|n0 rest IH]; cbn;
    [discriminate|].
  destruct (String.eqb (ID n0) (localID s)); [auto|].
  destruct (table n0 !! e) as [l|]; [|auto].
  destruct (0 <? l); [|auto]. intros [= <-]. now left.
Qed.

Lemma iteration_In s order node :
  iteration s order ->
  In node order <-> exists k, nodes s !! k = Some node.
Proof.
  intros Hit. rewrite <- list_elem_of_In, Hit, list_elem_of_fmap. split.
  - intros ([k n] & -> & Hkn). exists k. now apply elem_of_map_to_list.
  - intros (k & Hk). exists (k, node). split; [reflexivity|].
    now apply elem_of_map_to_list.
Qed.

(** X11: in every state reached from NewState by calls of the mutation
    API, and for every order in which LookupEndpoint may range over the
    node map: after UpdateRemoteEndpoint has set a positive listener count
    for an endpoint on a known remote node, LookupEndpoint finds a node for
    that endpoint, a remote one with a positive count; and after
    RemoveRemoteEndpoint, after UpdateRemoteEndpoint with a count that is
    not positive, or after RemoveNode, LookupEndpoint does not return that
    node for the endpoint. *)
Theorem lookup_follows_remote_updates (localNode : Node) (cs : list call) :
  exists s,
    run cs (NewState localNode) = Ok s
    /\ forall id e l order found,
         is_remote id s = true ->
         (0 < l ->
          iteration (snd (UpdateRemoteEndpoint id e l s)) order ->
          exists node,
            LookupEndpoint e (snd (UpdateRemoteEndpoint id e l s)) order
            = Some node
            /\ ID node <> localID s /\ 0 < map_get (table node) e)
         /\ (l <= 0 ->
             iteration (snd (UpdateRemoteEndpoint id e l s)) order ->
             LookupEndpoint e (snd (UpdateRemoteEndpoint id e l s)) order
             = Some found ->
             ID found <> id)
         /\ (iteration (snd (RemoveRemoteEndpoint id e s)) order ->
             LookupEndpoint e (snd (RemoveRemoteEndpoint id e s)) order
             = Some found ->
             ID found <> id)
         /\ (iteration (snd (RemoveNode id s)) order ->
             LookupEndpoint e (snd (RemoveNode id s)) order = Some found ->
             ID found <> id).
Proof.
  destruct (local_active_NewState localNode) as [(n0 & Hn0 & _) _].
  destruct (run_keys cs (NewState localNode) n0 Hn0 (keys_NewState localNode))
    as (s & n & Hrun & Hkeys & _ & Hn).
  exists s. split; [exact Hrun|].
  intros id e l order found Hrem. unfold is_remote in Hrem.
  apply andb_true_iff in Hrem as [Hne Hknown].
  apply negb_true_iff in Hne.
  destruct (nodes s !! id) as [x|] eqn:Hx; [|discriminate].
  pose proof (Hkeys _ _ Hx) as Hidx.
  assert (Hloc : id <> localID s)
    by (intros ->; rewrite String.eqb_refl in Hne; discriminate).
  (* a node found under the ID [id] is the node stored under [id] *)
  assert (Hfound : forall (s' : State) y,
    localID s' = localID s ->
    (forall k z, nodes s' !! k = Some z -> ID z = k) ->
    nodes s' !! id = y ->
    iteration s' order -> LookupEndpoint e s' order = Some found ->
    ID found = id -> y = Some found /\ 0 < map_get (table found) e).
  { intros s' y Hid' Hkeys' Hy Hit Hlk Hfid.
    destruct (LookupEndpoint_positive e s' order found Hlk) as [_ Hpos].
    apply LookupEndpoint_In, (iteration_In s' order found Hit) in Hlk
      as (k & Hk).
    pose proof (Hkeys' _ _ Hk). split; [congruence|exact Hpos]. }
  assert (Hins : forall (y : Node), ID y = id ->
    forall k z, <[id := y]> (nodes s) !! k = Some z -> ID z = k).
  { intros y Hy k z. rewrite lookup_insert_Some.
    intros [[<- <-]|[_ Hk]]; eauto. }
  unfold UpdateRemoteEndpoint, RemoveRemoteEndpoint, RemoveNode.
  rewrite Hne, Hx. cbn [snd]. repeat split.
  - intros Hl Hit.
    destruct (LookupEndpoint e _ order) as [node|] eqn:Hlk.
    + exists node. split; [reflexivity|].
      apply (LookupEndpoint_positive e _ order node Hlk).
    + exfalso.
      destruct (LookupEndpoint_none e _ order Hlk
                  (set_Endpoints
                     (Some (<[e := l]> (make_if_nil (Endpoints x)))) x))
        as [Hbad|Hbad].
      * apply (iteration_In _ order _ Hit). exists id. cbn.
        apply lookup_insert_eq.
      * cbn in Hbad. congruence.
      * unfold map_get in Hbad. cbn in Hbad.
        rewrite lookup_insert_eq in Hbad. lia.
  - intros Hl Hit Hlk Hfid.
    match type of Hit with
    | iteration ?s' _ =>
        match s' with
        | set_nodes (<[_ := ?y]> _) _ =>
            destruct (Hfound s' _ eq_refl (Hins y Hidx) eq_refl Hit Hlk Hfid)
              as [Hy Hpos]
        end
    end.
    cbn in Hy. rewrite lookup_insert_eq in Hy. injection Hy as <-.
    unfold map_get in Hpos. cbn in Hpos. rewrite lookup_insert_eq in Hpos.
    lia.
  - intros Hit Hlk Hfid.
    match type of Hit with
    | iteration ?s' _ =>
        match s' with
        | set_nodes (<[_ := ?y]> _) _ =>
            destruct (Hfound s' _ eq_refl (Hins y Hidx) eq_refl Hit Hlk Hfid)
              as [Hy Hpos]
        end
    end.
    cbn in Hy. rewrite lookup_insert_eq in Hy. injection Hy as <-.
    unfold map_get, table in Hpos. cbn in Hpos.
    destruct (Endpoints x); [rewrite lookup_delete_eq in Hpos|
                             rewrite lookup_empty in Hpos]; lia.
  - intros Hit Hlk Hfid.
    assert (Hkeys' : forall k z,
              delete id (nodes s) !! k = Some z -> ID z = k).
    { intros k z. rewrite lookup_delete_Some. intros [_ Hk]. eauto. }
    destruct (Hfound (removeMetricsNode (Status x)
                        (set_nodes (delete id (nodes s)) s))
                _ eq_refl Hkeys' eq_refl Hit Hlk Hfid) as [Hy _].
    cbn in Hy. rewrite lookup_delete_eq in Hy. discriminate.
Qed.

End ClusterSpec.

(** * Properties of the cluster state under sharing *)

Module SharedSpec.
Import Shared.

Lemma same_heap_frame c (w w' : World) :
  well_formed w ->
  objects w' = objects w -> maps w' = maps w ->
  nodes w' = nodes w -> localID w' = localID w ->
  well_formed w'
  /\ localID w' = localID w
  /\ (forall k, key_of c w <> Some k -> nodes w' !! k = nodes w !! k)
  /\ (forall q, node_of c w <> Some q -> objects w' !! q = objects w !! q)
  /\ (forall m, is_Some (maps w !! m) -> map_of c w <> Some m ->
                maps w' !! m = maps w !! m).
Proof.
  intros [H1 H2] Ho Hm Hn Hl. unfold well_formed.
  rewrite Ho, Hm, Hn. repeat split; auto.
Qed.

Lemma fresh_map_is_new (w : World) : maps w !! fresh (dom (maps w)) = None.
Proof. apply not_elem_of_dom, is_fresh. Qed.

Lemma AddNode_frame node w :
  well_formed w ->
  match AddNode node w with
  | Panic _ => objects w !! node = None
  | Ok w' =>
      well_formed w'
      /\ localID w' = localID w
      /\ (forall k, key_of (CallAddNode node) w <> Some k ->
                    nodes w' !! k = nodes w !! k)
      /\ (forall q, node_of (CallAddNode node) w <> Some q ->
                    objects w' !! q = objects w !! q)
      /\ (forall m, is_Some (maps w !! m) ->
                    map_of (CallAddNode node) w <> Some m ->
                    maps w' !! m = maps w !! m)
  end.
Proof.
  intros Hwf. unfold AddNode, deref.
  destruct (objects w !! node) as [n|] eqn:Hp; cbn [bind]; [|reflexivity].
  destruct (String.eqb (ID n) (localID w)).
  { now apply same_heap_frame. }
  destruct Hwf as [H1 H2].
  assert (Hgoal : forall w0 : World,
    objects w0 = objects w -> maps w0 = maps w -> localID w0 = localID w ->
    nodes w0 = <[ID n := node]> (nodes w) ->
    well_formed w0
    /\ localID w0 = localID w
    /\ (forall k, key_of (CallAddNode node) w <> Some k ->
                  nodes w0 !! k = nodes w !! k)
    /\ (forall q, node_of (CallAddNode node) w <> Some q ->
                  objects w0 !! q = objects w !! q)
    /\ (forall m, is_Some (maps w !! m) ->
                  map_of (CallAddNode node) w <> Some m ->
                  maps w0 !! m = maps w !! m)).
  { intros w0 Ho Hm Hl Hn. unfold well_formed. rewrite Ho, Hm, Hn.
    cbn [key_of]. rewrite Hp. repeat split; auto.
    - intros k q. rewrite lookup_insert_Some.
      intros [[_ <-]|[_ Hk]]; eauto.
    - intros k Hk. apply lookup_insert_ne. congruence. }
  destruct (nodes w !! ID n); apply Hgoal; reflexivity.
Qed.

Lemma RemoveNode_frame id w :
  well_formed w ->
  exists r w',
    RemoveNode id w = Ok (r, w')
    /\ well_formed w'
    /\ localID w' = localID w
    /\ (forall k, key_of (CallRemoveNode id) w <> Some k ->
                  nodes w' !! k = nodes w !! k)
    /\ (forall q, node_of (CallRemoveNode id) w <> Some q ->
                  objects w' !! q = objects w !! q)
    /\ (forall m, is_Some (maps w !! m) ->
                  map_of (CallRemoveNode id) w <> Some m ->
                  maps w' !! m = maps w !! m).
Proof.
  intros Hwf. unfold RemoveNode.
  destruct (String.eqb id (localID w)).
  { eexists _, _. split; [reflexivity|]. now apply same_heap_frame. }
  destruct (nodes w !! id) as [p|] eqn:Hid.
  2:{ eexists _, _. split; [reflexivity|]. now apply same_heap_frame. }
  destruct Hwf as [H1 H2]. destruct (H1 _ _ Hid) as [n Hn].
  unfold deref. cbn [objects set_nodes]. rewrite Hn. cbn [bind].
  eexists _, _. split; [reflexivity|]. unfold well_formed. cbn.
  repeat split; auto.
  - intros k q Hk. apply lookup_delete_Some in Hk as [_ Hk]. eauto.
  - intros k Hk. apply lookup_delete_ne. congruence.
Qed.

Lemma UpdateRemoteStatus_frame id status w :
  well_formed w ->
  exists r w',
    UpdateRemoteStatus id status w = Ok (r, w')
    /\ well_formed w'
    /\ localID w' = localID w
    /\ (forall k, key_of (CallUpdateRemoteStatus id status) w <> Some k ->
                  nodes w' !! k = nodes w !! k)
    /\ (forall q, node_of (CallUpdateRemoteStatus id status) w <> Some q ->
                  objects w' !! q = objects w !! q)
    /\ (forall m, is_Some (maps w !! m) ->
                  map_of (CallUpdateRemoteStatus id status) w <> Some m ->
                  maps w' !! m = maps w !! m).
Proof.
  intros Hwf. unfold UpdateRemoteStatus.
  destruct (String.eqb id (localID w)).
  { eexists _, _. split; [reflexivity|]. now apply same_heap_frame. }
  destruct (nodes w !! id) as [p|] eqn:Hid.
  2:{ eexists _, _. split; [reflexivity|]. now apply same_heap_frame. }
  destruct Hwf as [H1 H2]. destruct (H1 _ _ Hid) as [n Hn].
  unfold deref. rewrite Hn. cbn [bind].
  eexists _, _. split; [reflexivity|]. unfold well_formed. cbn.
  rewrite Hid. repeat split; auto.
  - intros k q Hk. apply lookup_insert_is_Some'. right. eauto.
  - intros q n' m. rewrite lookup_insert_Some.
    intros [[<- <-]|[_ Hq]] He; cbn in He; eauto.
  - intros q Hq. apply lookup_insert_ne. congruence.
Qed.

Lemma UpdateRemoteEndpoint_frame id e l w :
  well_formed w ->
  exists r w',
    UpdateRemoteEndpoint id e l w = Ok (r, w')
    /\ well_formed w'
    /\ localID w' = localID w
    /\ (forall k, key_of (CallUpdateRemoteEndpoint id e l) w <> Some k ->
                  nodes w' !! k = nodes w !! k)
    /\ (forall q, node_of (CallUpdateRemoteEndpoint id e l) w <> Some q ->
                  objects w' !! q = objects w !! q)
    /\ (forall m, is_Some (maps w !! m) ->
                  map_of (CallUpdateRemoteEndpoint id e l) w <> Some m ->
                  maps w' !! m = maps w !! m).
Proof.
  intros Hwf. unfold UpdateRemoteEndpoint.
  destruct (String.eqb id (localID w)).
  { eexists _, _. split; [reflexivity|]. now apply same_heap_frame. }
  destruct (nodes w !! id) as [p|] eqn:Hid.
  2:{ eexists _, _. split; [reflexivity|]. now apply same_heap_frame. }
  destruct Hwf as [H1 H2]. destruct (H1 _ _ Hid) as [n Hn].
  unfold deref. rewrite Hn. cbn [bind].
  destruct (Endpoints n) as [m|] eqn:He.
  - destruct (H2 _ _ _ Hn He) as [t Ht].
    unfold deref_map. rewrite Ht. cbn [bind].
    eexists _, _. split; [reflexivity|]. unfold well_formed. cbn.
    rewrite Hid, Hn, He. repeat split; auto.
    + intros q n' m' Hq He'. apply lookup_insert_is_Some'. right. eauto.
    + intros m' _ Hm'. apply lookup_insert_ne. congruence.
  - pose proof (fresh_map_is_new w) as Hnew.
    unfold make_map, deref_map. cbn [maps set_maps set_objects].
    rewrite lookup_insert_eq. cbn [bind].
    eexists _, _. split; [reflexivity|]. unfold well_formed. cbn.
    rewrite Hid, Hn, He. repeat split; auto.
    + intros k q Hk. apply lookup_insert_is_Some'. right. eauto.
    + intros q n' m'. rewrite lookup_insert_Some.
      intros [[<- <-]|[_ Hq]] He'; cbn in He'.
      * injection He' as <-. rewrite lookup_insert_eq. eauto.
      * rewrite !lookup_insert_is_Some'. right. right. eauto.
    + intros q Hq. apply lookup_insert_ne. congruence.
    + intros m' [t Ht] _.
      assert (fresh (dom (maps w)) <> m') by congruence.
      now rewrite !lookup_insert_ne.
Qed.

Lemma RemoveRemoteEndpoint_frame id e w :
  well_formed w ->
  exists r w',
    RemoveRemoteEndpoint id e w = Ok (r, w')
    /\ well_formed w'
    /\ localID w' = localID w
    /\ (forall k, key_of (CallRemoveRemoteEndpoint id e) w <> Some k ->
                  nodes w' !! k = nodes w !! k)
    /\ (forall q, node_of (CallRemoveRemoteEndpoint id e) w <> Some q ->
                  objects w' !! q = objects w !! q)
    /\ (forall m, is_Some (maps w !! m) ->
                  map_of (CallRemoveRemoteEndpoint id e) w <> Some m ->
                  maps w' !! m = maps w !! m).
Proof.
  intros Hwf. unfold RemoveRemoteEndpoint.
  destruct (String.eqb id (localID w)).
  { eexists _, _. split; [reflexivity|]. now apply same_heap_frame. }
  destruct (nodes w !! id) as [p|] eqn:Hid.
  2:{ eexists _, _. split; [reflexivity|]. now apply same_heap_frame. }
  pose proof Hwf as [H1 H2]. destruct (H1 _ _ Hid) as [n Hn].
  unfold deref. rewrite Hn. cbn [bind].
  destruct (Endpoints n) as [m|] eqn:He.
  - destruct (H2 _ _ _ Hn He) as [t Ht].
    unfold deref_map. rewrite Ht. cbn [bind].
    eexists _, _. split; [reflexivity|]. unfold well_formed. cbn.
    rewrite Hid, Hn, He. repeat split; auto.
    + intros q n' m' Hq He'. apply lookup_insert_is_Some'. right. eauto.
    + intros m' _ Hm'. apply lookup_insert_ne. congruence.
  - eexists _, _. split; [reflexivity|]. now apply same_heap_frame.
Qed.

(** NewState on Node objects whose Endpoints refer to map objects: it
    panics on a nil pointer only, and the world it makes is well formed. *)
Lemma NewState_well_formed localNode objs ms :
  (forall q n m,
     objs !! q = Some n -> Endpoints n = Some m -> is_Some (ms !! m)) ->
  match NewState localNode objs ms with
  | Ok w => well_formed w /\ nodes w !! localID w = Some localNode
  | Panic _ => objs !! localNode = None
  end.
Proof.
  intros H2. unfold NewState.
  destruct (objs !! localNode) as [n|] eqn:Hn; [|reflexivity].
  unfold well_formed. cbn. split; [split|].
  - intros k p. rewrite lookup_insert_Some, lookup_empty.
    intros [[_ <-]|[_ [=]]]. rewrite lookup_insert_eq. eauto.
  - intros q n' m. rewrite lookup_insert_Some.
    intros [[<- <-]|[_ Hq]] He; cbn in He; eauto.
  - apply lookup_insert_eq.
Qed.

Lemma well_formed_shared_world : well_formed shared_world.
Proof.
  split.
  - intros k p H. cbn in H.
    apply lookup_insert_Some in H as [[_ <-]|[_ H]]; [eexists; reflexivity|].
    apply lookup_insert_Some in H as [[_ <-]|[_ H]]; [eexists; reflexivity|].
    apply lookup_insert_Some in H as [[_ <-]|[_ H]]; [eexists; reflexivity|].
    now rewrite lookup_empty in H.
  - intros p n m H He. cbn in H.
    apply lookup_insert_Some in H as [[_ <-]|[_ H]]; [discriminate|].
    apply lookup_insert_Some in H as [[_ <-]|[_ H]].
    { injection He as <-. eexists; reflexivity. }
    apply lookup_insert_Some in H as [[_ <-]|[_ H]].
    { injection He as <-. eexists; reflexivity. }
    now rewrite lookup_empty in H.
Qed.

(** X10: the calls about remote nodes write through what the state
    shares.  In a world where the pointers kept in the node map point to
    Node objects and the Endpoints of a Node object that is not nil
    refers to a map object, a call of AddNode, RemoveNode,
    UpdateRemoteStatus, UpdateRemoteEndpoint or RemoveRemoteEndpoint
    panics only if it is AddNode of a nil pointer, which always panics.
    Otherwise it leaves such a world, keeps the local ID, changes the node
    map at no key but the ID it is about, writes to no Node object but the
    one stored under that ID and to no map object but the Endpoints of
    that node.  What it writes is seen through every other reference: when
    the Endpoints of the node stored under a and of the node stored under
    b are the same map, UpdateRemoteEndpoint on a sets the count read
    through b too, also when b is the local node. *)
Theorem remote_calls_write_through_shared_nodes (c : call) (w : World) :
  well_formed w ->
  match exec c w with
  | Panic _ => exists node, c = CallAddNode node /\ objects w !! node = None
  | Ok w' =>
      well_formed w'
      /\ localID w' = localID w
      /\ (forall k, key_of c w <> Some k -> nodes w' !! k = nodes w !! k)
      /\ (forall q, node_of c w <> Some q -> objects w' !! q = objects w !! q)
      /\ (forall m, is_Some (maps w !! m) -> map_of c w <> Some m ->
                    maps w' !! m = maps w !! m)
  end
  /\ (forall node,
        objects w !! node = None -> exists msg, AddNode node w = Panic msg)
  /\ (forall a b pa pb na nb m e l,
        a <> localID w ->
        nodes w !! a = Some pa -> nodes w !! b = Some pb ->
        objects w !! pa = Some na -> objects w !! pb = Some nb ->
        Endpoints na = Some m -> Endpoints nb = Some m ->
        exists w',
          UpdateRemoteEndpoint a e l w = Ok (true, w')
          /\ listeners_at b e w' = Some l).
Proof.
  intros Hwf. split; [|split].
  - destruct c as [node|id|id st|id e l|id e]; cbn [exec].
    + pose proof (AddNode_frame node w Hwf) as H.
      destruct (AddNode node w); [exact H|eauto].
    + destruct (RemoveNode_frame id w Hwf) as (r & w' & -> & H). exact H.
    + destruct (UpdateRemoteStatus_frame id st w Hwf) as (r & w' & -> & H).
      exact H.
    + destruct (UpdateRemoteEndpoint_frame id e l w Hwf)
        as (r & w' & -> & H). exact H.
    + destruct (RemoveRemoteEndpoint_frame id e w Hwf)
        as (r & w' & -> & H). exact H.
  - intros node Hnode. unfold AddNode, deref. rewrite Hnode. cbn. eauto.
  - intros a b pa pb na nb m e l Ha Hpa Hpb Hna Hnb Hma Hmb.
    destruct Hwf as [_ H2]. destruct (H2 _ _ _ Hna Hma) as [t Ht].
    unfold UpdateRemoteEndpoint.
    destruct (String.eqb_spec a (localID w)) as [|_]; [contradiction|].
    unfold deref, deref_map. rewrite Hpa, Hna. cbn [bind]. rewrite Hma, Ht.
    cbn [bind]. eexists. split; [reflexivity|].
    unfold listeners_at. cbn. rewrite Hpb, Hnb, Hmb.
    now rewrite !lookup_insert_eq.
Qed.

Lemma remote_calls_write_through_shared_nodes_witness :
  well_formed shared_world
  /\ listeners_at "b" "e" shared_world = None
  /\ exists w',
       UpdateRemoteEndpoint "a" "e" 5 shared_world = Ok (true, w')
       /\ listeners_at "b" "e" w' = Some 5.
Proof.
  split; [exact well_formed_shared_world|]. split; [reflexivity|].
  refine (proj2 (proj2 (remote_calls_write_through_shared_nodes
            (CallUpdateRemoteEndpoint "a" "e" 5) shared_world
            well_formed_shared_world))
          "a" "b" 2%nat 3%nat _ _ 7%nat "e" 5 _ eq_refl eq_refl eq_refl
          eq_refl eq_refl eq_refl).
  discriminate.
Defined.

End SharedSpec.

(** * Properties of the proxy dispatcher *)

Module ProxySpec.
Import Proxy.

(** ** Runs of the dispatcher *)

Example first_label_of_host :
  endpointIDFromRequest (mkRequest "xyz.piko.example.com" "GET" "/" ∅)
  = Ok "xyz".
Proof. reflexivity. Qed.

Example split_on_dots :
  strings_Split "a.b.c" "." = ["a"; "b"; "c"]
  /\ strings_Split "a" "." = ["a"]
  /\ strings_Split ".a." "." = [""; "a"; ""].
Proof. repeat split. Qed.

Example json_escapes_quote_and_newline :
  json_string (String dquote (String "010" ""))
  = String dquote (String backslash (String dquote
      (String backslash (String "n" (String dquote ""))))).
Proof. reflexivity. Qed.

Example forward_hop :
  Request unit not_found_proxy ok_proxy tt plain_request
  = Ok (Some upstream_200,
        [LocalRequest "e" plain_request;
         RemoteRequest "e"
           (set_Header (<["X-Piko-Forward" := ["true"]]> ∅) plain_request);
         LogDebug "request: forwarded to remote"]).
Proof. reflexivity. Qed.

Example missing_endpoint_id :
  Request unit ok_proxy ok_proxy tt (mkRequest "localhost" "GET" "/" ∅)
  = Ok (Some (errorResponse 400 "missing piko endpoint id"),
        [LogWarn "request: missing endpoint id"]).
Proof. reflexivity. Qed.

Example wrapped_deadline_is_a_timeout :
  Request unit (fun _ _ _ => (None, Some (wrapError "rpc" DeadlineExceeded)))
          ok_proxy tt plain_request
  = Ok (Some (errorResponse 504 "endpoint timeout"),
        [LocalRequest "e" plain_request;
         LogWarn "request: endpoint timeout"]).
Proof. reflexivity. Qed.

(** ** Endpoint IDs *)

Lemma canonical_endpoint_key :
  CanonicalHeaderKey "x-piko-endpoint" = "X-Piko-Endpoint".
Proof. reflexivity. Qed.

Lemma prefix_dot (s : string) :
  String.prefix "." s =
  match s with
  | String a _ => Ascii.eqb a "."
  | EmptyString => false
  end.
Proof.
  destruct s as [|a rest]; [reflexivity|].
  change (String.prefix "." (String a rest))
    with (if ascii_dec "." a then String.prefix "" rest else false).
  destruct (ascii_dec "." a) as [<-|Hne].
  - rewrite Ascii.eqb_refl. destruct rest; reflexivity.
  - symmetry. apply Ascii.eqb_neq. congruence.
Qed.

Lemma strings_Index_dot s :
  strings_Index s "." =
  match s with
  | EmptyString => None
  | String a rest =>
      if Ascii.eqb a "." then Some 0%nat
      else match strings_Index rest "." with
           | Some i => Some (S i)
           | None => None
           end
  end.
Proof.
  destruct s as [|a rest]; [reflexivity|].
  cbn [strings_Index]. rewrite prefix_dot. reflexivity.
Qed.

Lemma strings_Contains_dot s : strings_Contains s "." = has_byte "." s.
Proof.
  unfold strings_Contains. induction s as [|a rest IH].
  - reflexivity.
  - rewrite strings_Index_dot. cbn [has_byte].
    destruct (Ascii.eqb a "."); [reflexivity|]. cbn [orb].
    rewrite <- IH. destruct (strings_Index rest "."); reflexivity.
Qed.

Lemma take_to_first_dot s : forall m,
  strings_Index s "." = Some m -> take_str m s = up_to_first "." s.
Proof.
  induction s as [|a rest IH]; intros m; rewrite strings_Index_dot.
  - discriminate.
  - cbn [up_to_first]. destruct (Ascii.eqb a ".").
    + intros [= <-]. reflexivity.
    + destruct (strings_Index rest ".") as [i|]; [|discriminate].
      intros [= <-]. cbn [take_str]. f_equal. now apply IH.
Qed.

(** The first piece of Split(host, ".") for a dotted host; the slice is
    never empty, so the index expression does not panic. *)
Lemma Split_first_label host :
  has_byte "." host = true ->
  index0 (strings_Split host ".") = Ok (up_to_first "." host).
Proof.
  intros Hdot. unfold strings_Split. cbn [String.eqb].
  destruct host as [|a rest]; [discriminate|].
  cbn [String.length genSplit_loop].
  rewrite <- strings_Contains_dot in Hdot. unfold strings_Contains in Hdot.
  destruct (strings_Index (String a rest) ".") as [m|] eqn:Hm;
    [|discriminate].
  cbn [index0]. f_equal. now apply take_to_first_dot.
Qed.

(** [up_to_first] is the substring up to the first occurrence. *)
Lemma up_to_first_split c s :
  has_byte c s = true ->
  exists rest,
    s = (up_to_first c s ++ String c rest)%string
    /\ has_byte c (up_to_first c s) = false.
Proof.
  induction s as [|a s IH]; cbn [has_byte up_to_first]; [discriminate|].
  destruct (Ascii.eqb_spec a c) as [->|Hne].
  - intros _. exists s. split; reflexivity.
  - cbn [orb]. intros H. destruct (IH H) as (rest & Heq & Hno).
    exists rest. split.
    + change (String a s
              = String a (up_to_first c s ++ String c rest)%string).
      f_equal. exact Heq.
    + cbn [has_byte]. destruct (Ascii.eqb_spec a c); [contradiction|].
      exact Hno.
Qed.

Lemma has_byte_nonempty c s : has_byte c s = true -> String.eqb s "" = false.
Proof. destruct s; [discriminate|reflexivity]. Qed.

Lemma endpointID_from_host r :
  Header_Get (Header r) "x-piko-endpoint" = "" ->
  endpointIDFromRequest r =
  Ok (if has_byte "." (Host r) then up_to_first "." (Host r) else "").
Proof.
  intros Hh. unfold endpointIDFromRequest. rewrite Hh. cbn [String.eqb negb].
  rewrite strings_Contains_dot.
  destruct (has_byte "." (Host r)) eqn:Hdot.
  - rewrite (has_byte_nonempty _ _ Hdot). cbn [negb andb].
    now apply Split_first_label.
  - now rewrite andb_false_r.
Qed.

Lemma endpointID_from_header r :
  Header_Get (Header r) "x-piko-endpoint" <> "" ->
  endpointIDFromRequest r = Ok (Header_Get (Header r) "x-piko-endpoint").
Proof.
  intros Hh. unfold endpointIDFromRequest.
  apply String.eqb_neq in Hh. now rewrite Hh.
Qed.

Lemma endpointID_never_panics r : exists id, endpointIDFromRequest r = Ok id.
Proof.
  destruct (String.eqb_spec (Header_Get (Header r) "x-piko-endpoint") "").
  - rewrite endpointID_from_host by assumption. eauto.
  - rewrite endpointID_from_header by assumption. eauto.
Qed.

(** C7: for every HTTP request, endpointIDFromRequest returns (without a
    panic) the value of the x-piko-endpoint header when that value is not
    empty; otherwise, when Host contains a '.', the substring of Host up to
    the first '.'; otherwise the empty string.  Host a.b.c gives a, Host a
    gives the empty string, and the header wins over a dotted Host. *)
Theorem endpointIDFromRequest_spec (r : http_Request) :
  endpointIDFromRequest r = Ok (endpoint_id_spec r)
  /\ (Header_Get (Header r) "x-piko-endpoint" <> "" ->
      endpointIDFromRequest r = Ok (Header_Get (Header r) "x-piko-endpoint"))
  /\ (Header_Get (Header r) "x-piko-endpoint" = "" ->
      has_byte "." (Host r) = true ->
      exists id rest,
        endpointIDFromRequest r = Ok id
        /\ Host r = (id ++ String "." rest)%string
        /\ has_byte "." id = false)
  /\ (Header_Get (Header r) "x-piko-endpoint" = "" ->
      has_byte "." (Host r) = false ->
      endpointIDFromRequest r = Ok "")
  /\ endpointIDFromRequest (mkRequest "a.b.c" "GET" "/" ∅) = Ok "a"
  /\ endpointIDFromRequest (mkRequest "a" "GET" "/" ∅) = Ok ""
  /\ endpointIDFromRequest
       (mkRequest "a.b.c" "GET" "/" (<["X-Piko-Endpoint" := ["h"]]> ∅))
     = Ok "h".
Proof.
  pose proof (endpointID_from_host r) as Hhost.
  pose proof (endpointID_from_header r) as Hhdr.
  split; [|split; [exact Hhdr|split; [|split; [|repeat split]]]].
  - unfold endpoint_id_spec.
    destruct (String.eqb_spec (Header_Get (Header r) "x-piko-endpoint") "")
      as [Hh|Hh].
    + rewrite (Hhost Hh). unfold Header_Get in Hh.
      rewrite canonical_endpoint_key in Hh.
      destruct (Header r !! "X-Piko-Endpoint") as [[|v vs]|]; try reflexivity.
      rewrite Hh. reflexivity.
    + rewrite (Hhdr Hh). unfold Header_Get in *.
      rewrite canonical_endpoint_key in *.
      destruct (Header r !! "X-Piko-Endpoint") as [[|v vs]|];
        try contradiction.
      apply String.eqb_neq in Hh. now rewrite Hh.
  - intros Hh Hdot. rewrite (Hhost Hh), Hdot.
    destruct (up_to_first_split "." (Host r) Hdot) as (rest & Heq & Hno).
    exists (up_to_first "." (Host r)), rest. auto.
  - intros Hh Hdot. now rewrite (Hhost Hh), Hdot.
Qed.

(** ** The dispatcher *)

Lemma append_tail (a : string) (c d : ascii) :
  ((a ++ String c "") ++ String d "")%string
  = (a ++ String c (String d ""))%string.
Proof.
  induction a as [|x a IH]; [reflexivity|].
  change (String x ((a ++ String c "") ++ String d "")%string
          = String x (a ++ String c (String d ""))%string).
  f_equal. exact IH.
Qed.

Lemma errorResponse_body statusCode message :
  json_escape_all message = message ->
  StatusCode (errorResponse statusCode message) = statusCode
  /\ Body (errorResponse statusCode message) = Some (error_body message).
Proof.
  intros Hsafe. split; [reflexivity|].
  unfold errorResponse, json_Marshal, json_string, error_body. cbn [Body Error].
  rewrite Hsafe. f_equal.
  change (String "{" (String dquote ("error" ++ String dquote (String ":"
            ((String dquote (message ++ String dquote "")) ++ "}"))))
          = String "{" (String dquote ("error" ++ String dquote (String ":"
              (String dquote (message ++ String dquote "}"))))))%string.
  do 5 f_equal.
  change (String dquote ((message ++ String dquote "") ++ String "}" "")
          = String dquote (message ++ String dquote (String "}" "")))%string.
  f_equal. apply append_tail.
Qed.

Lemma synthesized_errorResponse statusCode message :
  In statusCode [400; 503; 504] ->
  In message error_messages ->
  synthesized (errorResponse statusCode message).
Proof.
  intros Hcode Hmsg. split.
  - cbn in Hcode. cbn [StatusCode errorResponse]. intuition auto.
  - exists message. split; [exact Hmsg|].
    apply errorResponse_body.
    cbn in Hmsg. destruct Hmsg as [<-|[<-|[<-|[<-|[]]]]]; reflexivity.
Qed.

Lemma synthesized_upstream_error err :
  synthesized (fst (upstream_error err)).
Proof.
  unfold upstream_error. destruct (errors_Is err DeadlineExceeded); cbn [fst];
    apply synthesized_errorResponse; cbn; auto.
Qed.

(** C1: for every inbound request whose x-piko-forward header is "true"
    and whose endpoint ID is not empty, if the local proxy fails with
    endpoint-not-found then Proxy.Request returns the 503 response it makes
    up with the body [{"error":"endpoint not found"}], having called the
    local proxy once and the remote proxy not at all: a forwarded request
    is not forwarded a second hop. *)
Theorem forwarded_request_is_not_forwarded_again
    (Context_ : Type) (local remote : sub_proxy Context_) (ctx : Context_)
    (r : http_Request) (endpointID : string)
    (resp : option http_Response) (err : error) :
  Header_Get (Header r) "x-piko-forward" = "true" ->
  endpointIDFromRequest r = Ok endpointID ->
  endpointID <> "" ->
  local ctx endpointID r = (resp, Some err) ->
  errors_Is err errEndpointNotFound = true ->
  exists response tr,
    Request Context_ local remote ctx r = Ok (Some response, tr)
    /\ response = errorResponse StatusServiceUnavailable "endpoint not found"
    /\ StatusCode response = 503
    /\ Body response = Some (error_body "endpoint not found")
    /\ existsb is_remote_call tr = false
    /\ tr = [LocalRequest endpointID r; LogWarn "request: endpoint not found"].
Proof.
  intros Hfwd Hid Hne Hlocal Hnf.
  unfold Request. rewrite Hid, Hfwd. cbn [bind].
  apply String.eqb_neq in Hne. rewrite Hne, Hlocal, Hnf.
  cbn [negb String.eqb Ascii.eqb Bool.eqb].
  eexists _, _. split; [reflexivity|]. repeat split.
Qed.

Lemma forwarded_request_is_not_forwarded_again_witness :
  exists response tr,
    Request unit not_found_proxy ok_proxy tt forwarded_request
    = Ok (Some response, tr)
    /\ response = errorResponse StatusServiceUnavailable "endpoint not found"
    /\ StatusCode response = 503
    /\ Body response = Some (error_body "endpoint not found")
    /\ existsb is_remote_call tr = false
    /\ tr = [LocalRequest "e" forwarded_request;
             LogWarn "request: endpoint not found"].
Proof.
  apply (forwarded_request_is_not_forwarded_again unit not_found_proxy
           ok_proxy tt forwarded_request "e" None errEndpointNotFound).
  - reflexivity.
  - reflexivity.
  - discriminate.
  - reflexivity.
  - reflexivity.
Defined.

(** C10: for every context, every request and every outcome of the local
    and the remote proxy (a response, endpoint-not-found, a deadline
    exceeded, any other error), Proxy.Request does not panic and returns a
    response that is not nil: the response of the local proxy or of the
    remote proxy as it came, or a response it makes up itself, which has
    status 400, 503 or 504 and a body holding the JSON object with the
    error message.  The sub-proxies follow the Go convention that a nil
    error comes with a response. *)
Theorem Request_always_responds
    (Context_ : Type) (local remote : sub_proxy Context_) (ctx : Context_)
    (r : http_Request) :
  responds_or_fails local ->
  responds_or_fails remote ->
  exists response tr,
    Request Context_ local remote ctx r = Ok (Some response, tr)
    /\ ((exists endpointID, local ctx endpointID r = (Some response, None))
        \/ (exists endpointID r',
              remote ctx endpointID r' = (Some response, None))
        \/ synthesized response).
Proof.
  intros Hlocal Hremote.
  destruct (endpointID_never_panics r) as (id & Hid).
  unfold Request. rewrite Hid. cbn [bind].
  destruct (String.eqb id "").
  { eexists _, _. split; [reflexivity|]. right. right.
    apply synthesized_errorResponse; cbn; auto. }
  specialize (Hlocal ctx id r).
  destruct (local ctx id r) as [resp [err|]] eqn:Hl.
  - destruct (errors_Is err errEndpointNotFound); cbn [negb].
    + destruct (String.eqb (Header_Get (Header r) "x-piko-forward") "true").
      { eexists _, _. split; [reflexivity|]. right. right.
        apply synthesized_errorResponse; cbn; auto. }
      match goal with
      | |- context [remote ctx id ?r'] =>
          specialize (Hremote ctx id r');
          destruct (remote ctx id r') as [resp' [err'|]] eqn:Hr
      end.
      * destruct (errors_Is err' errEndpointNotFound); cbn [negb].
        -- eexists _, _. split; [reflexivity|]. right. right.
           apply synthesized_errorResponse; cbn; auto.
        -- pose proof (synthesized_upstream_error err') as Hs.
           destruct (upstream_error err') as [resp2 log2].
           eexists _, _. split; [reflexivity|]. right. right. exact Hs.
      * destruct resp' as [resp'|]; [|exfalso; now apply Hremote].
        eexists _, _. split; [reflexivity|]. right. left. eauto.
    + pose proof (synthesized_upstream_error err) as Hs.
      destruct (upstream_error err) as [resp2 log2].
      eexists _, _. split; [reflexivity|]. right. right. exact Hs.
  - destruct resp as [resp|]; [|exfalso; now apply Hlocal].
    eexists _, _. split; [reflexivity|]. left. eauto.
Qed.

Lemma Request_always_responds_witness :
  exists response tr,
    Request unit not_found_proxy ok_proxy tt plain_request
    = Ok (Some response, tr)
    /\ ((exists endpointID,
           not_found_proxy tt endpointID plain_request = (Some response, None))
        \/ (exists endpointID r',
              ok_proxy tt endpointID r' = (Some response, None))
        \/ synthesized response).
Proof.
  apply (Request_always_responds unit not_found_proxy ok_proxy tt
           plain_request).
  - intros ctx endpointID r. cbn. discriminate.
  - intros ctx endpointID r. cbn. discriminate.
Defined.

(** ** The forward header *)

(** X4: whatever the sub-proxies do, Request calls the local proxy at most
    once and the remote proxy at most once; a call of the remote proxy
    comes after a call of the local proxy, is made only for a request
    that did not carry x-piko-forward = true, and passes on the request
    with x-piko-forward set to true and the same Host, method and path. *)
Theorem remote_request_carries_forward_header
    (Context_ : Type) (local remote : sub_proxy Context_) (ctx : Context_)
    (r : http_Request) :
  exists resp tr,
    Request Context_ local remote ctx r = Ok (resp, tr)
    /\ (existsb is_remote_call tr = false
        \/ exists endpointID r' log,
             tr = ([LocalRequest endpointID r; RemoteRequest endpointID r']
                   ++ log)%list
             /\ existsb is_remote_call log = false
             /\ Header_Get (Header r) "x-piko-forward" <> "true"
             /\ Header_Get (Header r') "x-piko-forward" = "true"
             /\ Host r' = Host r /\ Method r' = Method r
             /\ URL_Path r' = URL_Path r).
Proof.
  destruct (endpointID_never_panics r) as (id & Hid).
  unfold Request. rewrite Hid. cbn [bind].
  destruct (String.eqb id ""); [eexists _, _; split; [reflexivity|auto]|].
  destruct (local ctx id r) as [resp [err|]];
    [|eexists _, _; split; [reflexivity|auto]].
  destruct (errors_Is err errEndpointNotFound); cbn [negb].
  - destruct (String.eqb_spec (Header_Get (Header r) "x-piko-forward") "true")
      as [Hf|Hf]; [eexists _, _; split; [reflexivity|auto]|].
    assert (Hset : Header_Get (Header_Set "x-piko-forward" "true" (Header r))
                     "x-piko-forward" = "true").
    { unfold Header_Get, Header_Set. now rewrite lookup_insert_eq. }
    match goal with
    | |- context [remote ctx id ?r'] =>
        destruct (remote ctx id r') as [resp' [err'|]]
    end.
    + destruct (errors_Is err' errEndpointNotFound); cbn [negb].
      * eexists _, _. split; [reflexivity|]. right.
        eexists _, _, _. split; [reflexivity|]. auto 10.
      * unfold upstream_error.
        destruct (errors_Is err' DeadlineExceeded);
          (eexists _, _; split; [reflexivity|]; right;
           eexists _, _, _; split; [reflexivity|]; auto 10).
    + eexists _, _. split; [reflexivity|]. right.
      eexists _, _, _. split; [reflexivity|]. auto 10.
  - unfold upstream_error.
    destruct (errors_Is err DeadlineExceeded);
      (eexists _, _; split; [reflexivity|auto]).
Qed.

(** ** Wrapped errors *)

Lemma errors_Is_cause err target :
  errors_Is err target = is_sentinel (cause err) target.
Proof.
  induction err as [| |msg|msg inner IH]; cbn [errors_Is cause];
    try apply orb_false_r.
  rewrite IH. now destruct target.
Qed.

Lemma upstream_error_cause err err' :
  cause err = cause err' -> upstream_error err = upstream_error err'.
Proof.
  intros H. unfold upstream_error. now rewrite !errors_Is_cause, H.
Qed.

(** X15: Request tells the errors of the sub-proxies apart by their cause
    only.  With sub-proxies that return the same responses and fail on the
    same calls with errors of the same cause (the error at the end of the
    chain of wrapped errors), Request returns the same response, makes the
    same calls to the sub-proxies and logs the same messages, however the
    errors are wrapped: an endpoint-not-found or a deadline error is
    recognised under any number of wrappers. *)
Theorem Request_tells_errors_by_their_cause
    (Context_ : Type) (local remote local' remote' : sub_proxy Context_)
    (ctx : Context_) (r : http_Request) :
  same_cause local local' ->
  same_cause remote remote' ->
  Request Context_ local remote ctx r = Request Context_ local' remote' ctx r.
Proof.
  intros Hl Hr. unfold Request.
  destruct (endpointIDFromRequest r) as [id|msg]; cbn [bind]; [|reflexivity].
  destruct (String.eqb id ""); [reflexivity|].
  destruct (Hl ctx id r) as [Hresp Herr].
  destruct (local ctx id r) as [resp err], (local' ctx id r) as [resp' err'].
  cbn in Hresp, Herr. subst resp'.
  destruct err as [err|], err' as [err'|]; try discriminate; [|reflexivity].
  injection Herr as Herr.
  rewrite (upstream_error_cause _ _ Herr), !errors_Is_cause, Herr.
  destruct (is_sentinel (cause err') errEndpointNotFound); cbn [negb];
    [|reflexivity].
  destruct (String.eqb (Header_Get (Header r) "x-piko-forward") "true");
    [reflexivity|].
  match goal with
  | |- context [remote ctx id ?r'] =>
      destruct (Hr ctx id r') as [Hresp2 Herr2];
      destruct (remote ctx id r') as [resp2 err2],
               (remote' ctx id r') as [resp2' err2']
  end.
  cbn in Hresp2, Herr2. subst resp2'.
  destruct err2 as [err2|], err2' as [err2'|]; try discriminate;
    [|reflexivity].
  injection Herr2 as Herr2.
  now rewrite (upstream_error_cause _ _ Herr2), !errors_Is_cause, Herr2.
Qed.

Lemma Request_tells_errors_by_their_cause_witness :
  same_cause wrapping_proxy not_found_proxy
  /\ Request unit wrapping_proxy ok_proxy tt plain_request
     = Request unit not_found_proxy ok_proxy tt plain_request.
Proof.
  assert (H : same_cause wrapping_proxy not_found_proxy)
    by (intros ctx endpointID r; split; reflexivity).
  split; [exact H|].
  apply (Request_tells_errors_by_their_cause unit wrapping_proxy ok_proxy
           not_found_proxy ok_proxy tt plain_request H).
  intros ctx endpointID r. split; reflexivity.
Defined.

End ProxySpec.

(** * Properties of the RPC stream *)

Module RpcSpec.
Import Rpc.

(** ** Runs of the stream *)

Example supported_request_is_answered :
  exists s',
    handleRequest (mkMessage (mkHeader 1 5 0) [Byte.x01]) CaseWrite
      (NewStream conn0 (<[1 := fun payload => payload]> ∅)) = Some s'
    /\ writeCh s' = [mkMessage (mkHeader 1 5 flagResponse) [Byte.x01]]
    /\ log s' = [HandlerCall 1 [Byte.x01]].
Proof. eexists. split; [reflexivity|]. split; reflexivity. Qed.

Example message_ids_start_at_one :
  exists s,
    RPC_send None 1 [] CaseProceed (NewStream conn0 ∅) = Some (inl 1, s)
    /\ writeCh s = [mkMessage (mkHeader 1 1 0) []].
Proof. eexists. split; reflexivity. Qed.

(** Three triggers whose calls of closeStream overlap: the read error
    wins the CompareAndSwap, Close and the write error get
    ErrStreamClosed, and the connection is closed once. *)
Example three_overlapping_calls :
  interleave [1; 0; 1; 2; 1; 1; 1]%nat
    (start_calls [ByClose; ByReadError read_error; ByWriteError read_error],
     NewStream conn0 ∅)
  = ([(ErrStreamClosed, Returned (Some ErrStreamClosed));
      (wrapError "read" read_error, Returned None);
      (wrapError "write" read_error, Returned (Some ErrStreamClosed))],
     mkStream (mkConn 1 None) ∅ 0 [] ∅ true (Some ErrStreamClosed) true
       [LogDebug "stream closed" (wrapError "read" read_error)]).
Proof. vm_compute. reflexivity. Qed.

(** ** Shutdown *)

(** The first closeStream on a stream shuts it down: the flag is set, the
    shutdown error stored, the shutdown channel closed and the connection
    closed once. *)
Lemma closeStream_first err s :
  shutdown s = false ->
  shutdownCh s = false ->
  exists r s',
    closeStream err s = Ok (r, s')
    /\ shutdown s' = true
    /\ shutdownCh s' = true
    /\ shutdownErr s' = Some ErrStreamClosed
    /\ closes (conn s') = S (closes (conn s))
    /\ writeCh s' = writeCh s
    /\ responseHandlers s' = responseHandlers s
    /\ r = match close_err (conn s) with
           | Some e => Some (wrapError "close conn" e)
           | None => None
           end.
Proof.
  intros Hs Hch. unfold closeStream, CompareAndSwap. rewrite Hs. cbn.
  unfold close_shutdownCh. cbn. rewrite Hch. cbn.
  destruct (close_err (conn s)); eexists _, _; (split; [reflexivity|]);
    cbn; auto 10.
Qed.

(** Every later closeStream returns ErrStreamClosed and touches nothing. *)
Lemma closeStream_again err s :
  shutdown s = true ->
  closeStream err s = Ok (Some ErrStreamClosed, s).
Proof.
  intros Hs. unfold closeStream, CompareAndSwap. rewrite Hs. reflexivity.
Qed.

Lemma fire_all_again ts s :
  shutdown s = true ->
  fire_all ts s = Ok (map (fun _ => Some ErrStreamClosed) ts, s).
Proof.
  intros Hs. induction ts as [|t ts IH]; [reflexivity|].
  cbn [fire_all map]. unfold fire. rewrite closeStream_again by exact Hs.
  cbn [bind]. rewrite IH. reflexivity.
Qed.

(** C9: Close is idempotent.  Of the shutdown triggers fired on a new
    stream (Close calls, read, decode and write errors, recovered panics)
    only the first does the shutdown: it sets the flag, closes the shutdown
    channel (no trigger panics on closing it twice) and closes the
    connection, which is thus closed exactly once; every later trigger
    returns ErrStreamClosed, and so does every later Close, which leaves
    the stream as it is. *)
Theorem Close_is_idempotent
    (c : Conn) (h : gmap Z HandlerFunc) (t : trigger) (ts : list trigger) :
  exists r s,
    fire_all (t :: ts) (NewStream c h)
    = Ok (r :: map (fun _ => Some ErrStreamClosed) ts, s)
    /\ r = match close_err c with
           | Some e => Some (wrapError "close conn" e)
           | None => None
           end
    /\ shutdown s = true
    /\ shutdownCh s = true
    /\ closes (conn s) = S (closes c)
    /\ Close s = Ok (Some ErrStreamClosed, s).
Proof.
  destruct (closeStream_first (trigger_error t) (NewStream c h))
    as (r & s & Hfirst & Hs & Hch & _ & Hcl & _ & _ & Hr);
    [reflexivity | reflexivity |].
  exists r, s. cbn [fire_all]. unfold fire at 1. rewrite Hfirst. cbn [bind].
  rewrite (fire_all_again ts s Hs). cbn [bind].
  repeat split; auto. unfold Close. now apply closeStream_again.
Qed.


(** ** Requests of an unsupported type *)

Lemma not_supported_flags :
  Response (SetErrNotSupported (SetResponse 0)) = true
  /\ ErrNotSupported (SetErrNotSupported (SetResponse 0)) = true.
Proof. split; reflexivity. Qed.

Lemma drop_own_length {A} (l l' : list A) : drop (length l) (l ++ l') = l'.
Proof. induction l; [reflexivity|exact IHl]. Qed.

Lemma drop_all {A} (l : list A) : drop (length l) l = [].
Proof. induction l; [reflexivity|exact IHl]. Qed.

(** C2, as stated, fails: on a stream that was closed while its write
    channel was full, a request of an unsupported type gets no reply.  The
    send to the write channel is not ready, the select takes the shutdown
    case, and handleRequest returns without a frame sent. *)
Lemma no_reply_after_shutdown_counterexample :
  Find (handler closed_busy_stream) (RPCType (Header request7)) = None
  /\ shutdownCh closed_busy_stream = true
  /\ length (writeCh closed_busy_stream) = writeCh_cap
  /\ handleRequest request7 CaseWrite closed_busy_stream = None
  /\ exists s',
       handleRequest request7 CaseShutdown closed_busy_stream = Some s'
       /\ sent closed_busy_stream s' = [].
Proof.
  split; [vm_compute; reflexivity|]. split; [vm_compute; reflexivity|].
  split; [vm_compute; reflexivity|]. split; [vm_compute; reflexivity|].
  eexists. split; [vm_compute; reflexivity|]. vm_compute. reflexivity.
Qed.

(** C2 (amended): for every request frame whose RPC type has no
    registered handler and every case the select of handleRequest can
    take, handleRequest returns without a call of a handler function.  When
    it takes the send, it has queued exactly one frame: a response with the
    RPC type and message ID of the request, the Response and
    ErrNotSupported flags set and an empty payload.  It takes the shutdown
    case only on a stream that is shut down, and then sends nothing.  On a
    stream that is not shut down the send is the only case. *)
Theorem unsupported_request_gets_not_supported
    (m : message) (c : send_case) (s : stream) :
  Find (handler s) (RPCType (Header m)) = None ->
  send_ready c s = true ->
  exists s',
    handleRequest m c s = Some s'
    /\ handler_calls s s' = []
    /\ match c with
       | CaseWrite =>
           exists reply,
             sent s s' = [reply]
             /\ RPCType (Header reply) = RPCType (Header m)
             /\ ID (Header reply) = ID (Header m)
             /\ Response (Flags (Header reply)) = true
             /\ ErrNotSupported (Flags (Header reply)) = true
             /\ Payload reply = []
       | CaseShutdown => shutdownCh s = true /\ sent s s' = []
       end
    /\ (shutdownCh s = false -> c = CaseWrite).
Proof.
  intros Hfind Hready. unfold handleRequest. rewrite Hfind.
  unfold select_send.
  assert (Hready' : send_ready c
            (logger (LogWarn "rpc type not supported" (RPCType (Header m))
                       (ID (Header m))) s) = true)
    by (destruct c; exact Hready).
  rewrite Hready'.
  destruct c; eexists; (split; [reflexivity|]).
  - split.
    { unfold handler_calls. cbn [log logger set_writeCh].
      rewrite drop_own_length. reflexivity. }
    split; [|reflexivity].
    eexists. split.
    { unfold sent. cbn [writeCh logger set_writeCh].
      apply drop_own_length. }
    cbn [Header Payload RPCType ID Flags].
    destruct not_supported_flags as [Hr He]. auto.
  - split.
    { unfold handler_calls. cbn [log logger].
      rewrite drop_own_length. reflexivity. }
    cbn [send_ready] in Hready. split.
    + split; [exact Hready|]. unfold sent. cbn [writeCh logger].
      apply drop_all.
    + intros Hlive. congruence.
Qed.

Lemma unsupported_request_gets_not_supported_witness :
  exists s',
    handleRequest request7 CaseWrite (NewStream conn0 ∅) = Some s'
    /\ handler_calls (NewStream conn0 ∅) s' = []
    /\ (exists reply,
          sent (NewStream conn0 ∅) s' = [reply]
          /\ RPCType (Header reply) = RPCType (Header request7)
          /\ ID (Header reply) = ID (Header request7)
          /\ Response (Flags (Header reply)) = true
          /\ ErrNotSupported (Flags (Header reply)) = true
          /\ Payload reply = [])
    /\ (shutdownCh (NewStream conn0 ∅) = false -> CaseWrite = CaseWrite).
Proof.
  apply (unsupported_request_gets_not_supported request7 CaseWrite
           (NewStream conn0 ∅)).
  - reflexivity.
  - reflexivity.
Defined.

(** ** Overlapping calls of closeStream *)

(** The steps of one call, run without interruption, are closeStream. *)
Lemma closeStream_steps err s :
  Nat.iter 5 (fun st => closeStream_step err (fst st) (snd st))
           (AtCompareAndSwap, s)
  = match closeStream err s with
    | Ok (r, s') => (Returned r, s')
    | Panic msg =>
        (Panicked msg, set_shutdownErr (Some ErrStreamClosed)
                         (set_shutdown true s))
    end.
Proof.
  destruct s as [[n cerr] h id w rh ch serr sd lg].
  destruct sd, ch, cerr; reflexivity.
Qed.

Lemma filter_none {A} (f : A -> bool) (l : list A) :
  length (List.filter f l) = 0%nat -> Forall (fun x => f x = false) l.
Proof.
  induction l as [|x l IH]; cbn; [constructor|].
  destruct (f x) eqn:Hx; [discriminate|]. intros H. constructor; auto.
Qed.

Lemma shutdown_calls_app l1 c l2 :
  shutdown_calls (l1 ++ c :: l2)
  = (shutdown_calls l1 + (if does_shutdown c then 1 else 0)
     + shutdown_calls l2)%nat.
Proof.
  unfold shutdown_calls. rewrite List.filter_app, List.length_app. cbn.
  destruct (does_shutdown c); cbn; lia.
Qed.

Lemma bystanders_ok c0 s s' l :
  shutdown_calls l = 0%nat ->
  Forall (call_ok c0 s) l ->
  shutdown s' = true ->
  Forall (call_ok c0 s') l.
Proof.
  intros Hnone Hok Hs'. apply filter_none in Hnone.
  rewrite Forall_forall in *. intros c Hc.
  specialize (Hnone c Hc). specialize (Hok c Hc).
  unfold does_shutdown, call_ok in *. destruct c as [err p]. cbn [snd] in *.
  destruct p as [| | | | |[[]|]|]; try discriminate; auto.
Qed.

(** [call_ok] looks at the flag, the shutdown channel and the connection
    only. *)
Lemma call_ok_same_fields c0 s s' l :
  shutdown s' = shutdown s ->
  shutdownCh s' = shutdownCh s ->
  conn s' = conn s ->
  Forall (call_ok c0 s) l -> Forall (call_ok c0 s') l.
Proof.
  intros H1 H2 H3 Hl. eapply Forall_impl; [exact Hl|].
  intros [err p]. unfold call_ok. cbn [snd]. rewrite H1, H2, H3. auto.
Qed.

(** A step of any of the calls keeps the invariant. *)
Lemma step_call_inv c0 i st : calls_inv c0 st -> calls_inv c0 (step_call i st).
Proof.
  destruct st as [calls s]. intros (Hok & Hn & Hlive).
  unfold step_call. cbn [fst snd] in *.
  destruct (calls !! i) as [[err p]|] eqn:Hi;
    [|unfold calls_inv; cbn [fst snd]; auto].
  assert (Hlen : (i < length calls)%nat) by (eapply lookup_lt_Some; eauto).
  rewrite (insert_take_drop calls i _ Hlen).
  pose proof (take_drop_middle calls i _ Hi) as Hsplit.
  set (l1 := take i calls) in *. set (l2 := drop (S i) calls) in *.
  clearbody l1 l2. subst calls. clear Hi Hlen.
  apply Forall_app in Hok as [Hok1 Hok2].
  apply Forall_cons in Hok2 as [Hc Hok2].
  rewrite shutdown_calls_app in Hn.
  unfold calls_inv. cbn [fst snd].
  rewrite shutdown_calls_app, Forall_app, Forall_cons.
  unfold call_ok in Hc. cbn [snd] in Hc.
  destruct p as [| | | | |r|msg]; cbn [closeStream_step].
  - (* the CompareAndSwap *)
    unfold CompareAndSwap.
    destruct (shutdown s) eqn:Hs; cbn [Bool.eqb negb fst snd].
    + rewrite Hs. cbn [does_shutdown snd] in *.
      repeat split; auto; discriminate.
    + destruct (Hlive eq_refl) as [Hch Hcl].
      cbn [does_shutdown snd] in *.
      assert (H1 : shutdown_calls l1 = 0%nat) by lia.
      assert (H2 : shutdown_calls l2 = 0%nat) by lia.
      (split; [split; [|split] | split]).
      * eapply bystanders_ok; eauto.
      * unfold call_ok. cbn. auto.
      * eapply bystanders_ok; eauto.
      * cbn. lia.
      * cbn. discriminate.
  - (* the store of the shutdown error *)
    destruct Hc as (Hs & Hch & Hcl). cbn [fst snd does_shutdown] in *.
    (split; [split; [|split] | split]).
    + eapply call_ok_same_fields; [| | |eassumption]; reflexivity.
    + unfold call_ok. cbn. auto.
    + eapply call_ok_same_fields; [| | |eassumption]; reflexivity.
    + exact Hn.
    + exact Hlive.
  - (* the close of the shutdown channel *)
    destruct Hc as (Hs & Hch & Hcl). unfold close_shutdownCh. rewrite Hch.
    cbn [fst snd does_shutdown] in *. rewrite Hs in Hn.
    assert (H1 : shutdown_calls l1 = 0%nat) by lia.
    assert (H2 : shutdown_calls l2 = 0%nat) by lia.
    (split; [split; [|split] | split]).
    + eapply bystanders_ok; eauto.
    + unfold call_ok. cbn. auto.
    + eapply bystanders_ok; eauto.
    + cbn [shutdown set_shutdownCh]. rewrite Hs. lia.
    + cbn [shutdown set_shutdownCh]. rewrite Hs. discriminate.
  - (* the close of the connection *)
    destruct Hc as (Hs & Hch & Hcl). unfold conn_Close.
    cbn [fst snd does_shutdown] in *. rewrite Hs in Hn.
    assert (H1 : shutdown_calls l1 = 0%nat) by lia.
    assert (H2 : shutdown_calls l2 = 0%nat) by lia.
    destruct (close_err (conn s)) as [e|]; cbn [fst snd];
      (split; [split; [|split] | split]);
      try (eapply bystanders_ok; eauto; fail);
      try (unfold call_ok; cbn; auto; fail);
      try (cbn [does_shutdown snd shutdown set_conn]; rewrite Hs; lia);
      cbn [shutdown set_conn]; rewrite Hs; discriminate.
  - (* the log line *)
    destruct Hc as (Hs & Hch & Hcl). cbn [fst snd does_shutdown] in *.
    (split; [split; [|split] | split]).
    + eapply call_ok_same_fields; [| | |eassumption]; reflexivity.
    + unfold call_ok. cbn. auto.
    + eapply call_ok_same_fields; [| | |eassumption]; reflexivity.
    + exact Hn.
    + exact Hlive.
  - (* returned *)
    cbn [fst snd]. (split; [split; [|split] | split]); auto.
  - contradiction.
Qed.

Lemma interleave_inv c0 schedule : forall st,
  calls_inv c0 st -> calls_inv c0 (interleave schedule st).
Proof.
  unfold interleave. induction schedule as [|i schedule IH]; intros st Hinv.
  - exact Hinv.
  - cbn [fold_left]. apply IH, step_call_inv, Hinv.
Qed.

Lemma step_call_length i st : length (fst (step_call i st)) = length (fst st).
Proof.
  unfold step_call. destruct (fst st !! i) as [[err p]|]; [|reflexivity].
  cbn [fst]. apply length_insert.
Qed.

Lemma interleave_length schedule : forall st,
  length (fst (interleave schedule st)) = length (fst st).
Proof.
  unfold interleave. induction schedule as [|i schedule IH]; intros st.
  - reflexivity.
  - cbn [fold_left]. rewrite IH. apply step_call_length.
Qed.

Lemma start_calls_inv c h ts :
  calls_inv (closes c) (start_calls ts, NewStream c h).
Proof.
  unfold calls_inv. cbn [fst snd NewStream shutdown shutdownCh conn].
  split; [|split; [|auto]].
  - unfold start_calls. apply Forall_forall. intros x Hx.
    apply list_elem_of_In, in_map_iff in Hx as (t & <- & _). exact I.
  - unfold shutdown_calls, start_calls. induction ts as [|t ts IH]; auto.
Qed.

(** Where a call does the shutdown, the connection was closed at most
    once more than at the start, and that call did not panic. *)
Lemma shutdown_call_exists l :
  shutdown_calls l = 1%nat -> exists c, In c l /\ does_shutdown c = true.
Proof.
  unfold shutdown_calls. induction l as [|x l IH]; cbn; [discriminate|].
  destruct (does_shutdown x) eqn:Hx.
  - intros _. exists x. auto.
  - intros H. destruct (IH H) as (c & Hin & Hc). exists c. auto.
Qed.

Lemma calls_inv_closes c0 st :
  calls_inv c0 st ->
  closes (conn (snd st)) = c0 \/ closes (conn (snd st)) = S c0.
Proof.
  destruct st as [calls s]. intros (Hok & Hn & Hlive). cbn [fst snd] in *.
  destruct (shutdown s) eqn:Hs.
  - destruct (shutdown_call_exists calls Hn) as ([err p] & Hin & Hc).
    rewrite Forall_forall in Hok.
    specialize (Hok _ (proj2 (list_elem_of_In _ _) Hin)).
    unfold call_ok, does_shutdown in *. cbn [snd] in *.
    destruct p as [| | | | |[[]|]|]; try discriminate; try contradiction;
      intuition auto.
  - left. now apply Hlive.
Qed.

Lemma calls_inv_no_panic c0 st :
  calls_inv c0 st -> existsb has_panicked (fst st) = false.
Proof.
  intros (Hok & _). induction Hok as [|[err p] l Hc _ IH]; [reflexivity|].
  cbn [existsb]. rewrite IH, orb_false_r.
  unfold call_ok, has_panicked in *. cbn [snd] in *.
  destruct p; try reflexivity. contradiction.
Qed.

Lemma calls_inv_returned c0 st c :
  calls_inv c0 st -> In c (fst st) -> has_returned c = true ->
  shutdown (snd st) = true.
Proof.
  intros (Hok & _) Hin Hret. rewrite Forall_forall in Hok.
  specialize (Hok _ (proj2 (list_elem_of_In _ _) Hin)).
  destruct c as [err p]. unfold call_ok, has_returned in *. cbn [snd] in *.
  destruct p as [| | | | |[[]|]|]; try discriminate; intuition auto.
Qed.

Lemma calls_inv_all_returned c0 st :
  calls_inv c0 st ->
  fst st <> [] ->
  forallb has_returned (fst st) = true ->
  shutdown (snd st) = true
  /\ shutdownCh (snd st) = true
  /\ closes (conn (snd st)) = S c0
  /\ shutdown_calls (fst st) = 1%nat.
Proof.
  intros Hinv Hne Hall.
  assert (Hs : shutdown (snd st) = true).
  { destruct (fst st) as [|c l] eqn:Hl; [contradiction|].
    cbn [forallb] in Hall. apply andb_true_iff in Hall as [Hc _].
    apply (calls_inv_returned c0 st c Hinv); [rewrite Hl; left; auto|exact Hc]. }
  destruct Hinv as (Hok & Hn & _). rewrite Hs in Hn.
  destruct (shutdown_call_exists _ Hn) as ([err p] & Hin & Hc).
  rewrite forallb_forall in Hall. specialize (Hall _ Hin).
  rewrite Forall_forall in Hok.
  specialize (Hok _ (proj2 (list_elem_of_In _ _) Hin)).
  unfold call_ok, does_shutdown, has_returned in *. cbn [snd] in *.
  destruct p as [| | | | |[[]|]|]; try discriminate; intuition auto.
Qed.

(** X1: overlapping calls of closeStream.  However the steps of the calls that
    the shutdown triggers make on a new stream interleave, at most one call
    does the shutdown, the connection is closed at most once, and no call
    panics on closing the shutdown channel a second time; once a call has
    returned the stream is flagged as shut down; and once all calls have
    returned the shutdown channel is closed and the connection has been
    closed exactly once, by the one call that did not get
    ErrStreamClosed from the CompareAndSwap. *)
Theorem overlapping_closeStream_shuts_down_once
    (c : Conn) (h : gmap Z HandlerFunc) (ts : list trigger)
    (schedule : list nat) :
  exists calls s,
    interleave schedule (start_calls ts, NewStream c h) = (calls, s)
    /\ length calls = length ts
    /\ (shutdown_calls calls <= 1)%nat
    /\ (closes (conn s) = closes c \/ closes (conn s) = S (closes c))
    /\ existsb has_panicked calls = false
    /\ (existsb has_returned calls = true -> shutdown s = true)
    /\ (ts <> [] -> forallb has_returned calls = true ->
        shutdownCh s = true
        /\ closes (conn s) = S (closes c)
        /\ shutdown_calls calls = 1%nat).
Proof.
  pose proof (interleave_inv (closes c) schedule _ (start_calls_inv c h ts))
    as Hinv.
  pose proof (interleave_length schedule (start_calls ts, NewStream c h))
    as Hlen.
  destruct (interleave schedule (start_calls ts, NewStream c h))
    as [calls s] eqn:Hrun.
  cbn [fst snd] in Hlen. unfold start_calls in Hlen.
  rewrite length_map in Hlen.
  exists calls, s. split; [reflexivity|]. split; [exact Hlen|]. split.
  { destruct Hinv as (_ & Hn & _). cbn [fst snd] in Hn. rewrite Hn.
    destruct (shutdown s); lia. }
  split; [exact (calls_inv_closes _ _ Hinv)|].
  split; [exact (calls_inv_no_panic _ _ Hinv)|]. split.
  - intros Hret. apply existsb_exists in Hret as (x & Hin & Hx).
    exact (calls_inv_returned _ _ x Hinv Hin Hx).
  - intros Hne Hall.
    assert (Hcalls : calls <> []).
    { intros ->. destruct ts; [contradiction|discriminate]. }
    destruct (calls_inv_all_returned _ _ Hinv Hcalls Hall) as (_ & H1 & H2 & H3).
    auto.
Qed.

(** ** An RPC and its response *)

Lemma room_ltb (s : stream) :
  (length (writeCh s) < writeCh_cap)%nat ->
  (length (writeCh s) <? writeCh_cap)%nat = true.
Proof. intros H. now apply Nat.ltb_lt. Qed.

(** X12: an RPC from end to end.  RPC on a stream whose write channel
    has room queues one request, with a fresh message ID and the Response
    flag clear, and registers a response channel for it.  A turn of the
    peer's reader on that frame starts handleRequest for it, which queues
    one reply with the Response flag set.  A turn of the caller's reader
    on the reply hands it to the response channel, and RPC returns what
    the peer's handler for the RPC type returned for the request payload,
    or the error [not supported] when the peer has no handler for the
    type; the response channel is unregistered again. *)
Theorem RPC_returns_what_the_peer_handler_returns
    (caller peer : stream) (rpcType : Z) (req : list Byte.byte) :
  (length (writeCh caller) < writeCh_cap)%nat ->
  (length (writeCh peer) < writeCh_cap)%nat ->
  exists id queued request at_peer peer' reply done,
    RPC_send None rpcType req CaseProceed caller = Some (inl id, queued)
    /\ id = uint64_wrap (nextMessageID caller + 1)
    /\ sent caller queued = [request]
    /\ Response (Flags (Header request)) = false
    /\ reader_turn (Frame request) peer = Some (Ok at_peer)
    /\ r_spawned at_peer = Some request
    /\ r_stream at_peer = peer
    /\ handleRequest request CaseWrite peer = Some peer'
    /\ sent peer peer' = [reply]
    /\ Response (Flags (Header reply)) = true
    /\ RPC None None rpcType req CaseProceed
         (apply_op (OpReaderTurn (Frame reply))) CaseProceed caller
       = Some (match Find (handler peer) rpcType with
               | Some handlerFunc => (handlerFunc req, None)
               | None => ([], Some (errorString "not supported"))
               end, done)
    /\ responseHandlers done = delete id (responseHandlers caller)
    /\ writeCh done = (writeCh caller ++ [request])%list.
Proof.
  intros Hcaller Hpeer.
  apply room_ltb in Hcaller. apply room_ltb in Hpeer.
  set (id := uint64_wrap (nextMessageID caller + 1)).
  set (request := mkMessage (mkHeader rpcType id 0) req).
  assert (Hsend : RPC_send None rpcType req CaseProceed caller
    = Some (inl id,
        set_writeCh (writeCh caller ++ [request])
          (set_responseHandlers (<[id := []]> (responseHandlers caller))
             (set_nextMessageID id caller)))).
  { unfold RPC_send. cbn [writeCh set_responseHandlers set_nextMessageID].
    rewrite Hcaller. reflexivity. }
  assert (Hreply : exists peer' reply,
    handleRequest request CaseWrite peer = Some peer'
    /\ sent peer peer' = [reply]
    /\ reply = mkMessage
         (mkHeader rpcType id
            (match Find (handler peer) rpcType with
             | Some _ => SetResponse 0
             | None => SetErrNotSupported (SetResponse 0)
             end))
         (match Find (handler peer) rpcType with
          | Some handlerFunc => handlerFunc req
          | None => []
          end)).
  { unfold handleRequest. cbn [Header RPCType ID Payload request].
    destruct (Find (handler peer) rpcType) as [handlerFunc|];
      unfold select_send; cbn [send_ready writeCh logger];
      rewrite Hpeer; eexists _, _; (split; [reflexivity|]);
      (split; [|reflexivity]); unfold sent; cbn [writeCh set_writeCh logger];
      apply drop_own_length. }
  destruct Hreply as (peer' & reply & Hhandle & Hsent & ->).
  match goal with
  | H : sent peer peer' = [?m] |- _ => set (reply := m) in *
  end.
  assert (Hflag : Response (Flags (Header reply)) = true)
    by (unfold reply; destruct (Find (handler peer) rpcType); reflexivity).
  eexists id, _, request, _, peer', reply,
    (set_responseHandlers
       (delete id (<[id := [reply]]> (<[id := []]> (responseHandlers caller))))
       (set_responseHandlers
          (<[id := [reply]]> (<[id := []]> (responseHandlers caller)))
          (set_writeCh (writeCh caller ++ [request])
             (set_responseHandlers (<[id := []]> (responseHandlers caller))
                (set_nextMessageID id caller))))).
  split; [exact Hsend|]. split; [reflexivity|]. split.
  { unfold sent. cbn [writeCh set_writeCh]. apply drop_own_length. }
  split; [reflexivity|]. split; [reflexivity|]. split; [reflexivity|].
  split; [reflexivity|]. split; [exact Hhandle|]. split; [exact Hsent|].
  split; [exact Hflag|].
  unfold RPC. rewrite Hsend. unfold apply_op, reader_turn. rewrite Hflag.
  unfold handleResponse.
  change (ID (Header reply)) with id.
  cbn [responseHandlers set_writeCh set_responseHandlers].
  rewrite lookup_insert_eq. cbn [r_stream]. unfold RPC_wait.
  cbn [responseHandlers set_responseHandlers]. rewrite lookup_insert_eq.
  split; [|split; [cbn; now rewrite !delete_insert_eq|reflexivity]].
  unfold reply. cbn [Header Flags Payload].
  destruct (Find (handler peer) rpcType) as [handlerFunc|]; reflexivity.
Qed.

Lemma RPC_returns_what_the_peer_handler_returns_witness :
  exists id queued request at_peer peer' reply done,
    RPC_send None 1 [Byte.x01] CaseProceed (NewStream conn0 ∅)
    = Some (inl id, queued)
    /\ id = uint64_wrap (nextMessageID (NewStream conn0 ∅) + 1)
    /\ sent (NewStream conn0 ∅) queued = [request]
    /\ Response (Flags (Header request)) = false
    /\ reader_turn (Frame request) (NewStream conn0 ∅) = Some (Ok at_peer)
    /\ r_spawned at_peer = Some request
    /\ r_stream at_peer = NewStream conn0 ∅
    /\ handleRequest request CaseWrite (NewStream conn0 ∅) = Some peer'
    /\ sent (NewStream conn0 ∅) peer' = [reply]
    /\ Response (Flags (Header reply)) = true
    /\ RPC None None 1 [Byte.x01] CaseProceed
         (apply_op (OpReaderTurn (Frame reply))) CaseProceed
         (NewStream conn0 ∅)
       = Some (match Find (handler (NewStream conn0 ∅)) 1 with
               | Some handlerFunc => (handlerFunc [Byte.x01], None)
               | None => ([], Some (errorString "not supported"))
               end, done)
    /\ responseHandlers done
       = delete id (responseHandlers (NewStream conn0 ∅))
    /\ writeCh done = (writeCh (NewStream conn0 ∅) ++ [request])%list.
Proof.
  apply (RPC_returns_what_the_peer_handler_returns
           (NewStream conn0 ∅) (NewStream conn0 ∅) 1 [Byte.x01]);
    cbn; unfold writeCh_cap; lia.
Defined.

(** ** What the stream functions leave alone *)

Lemma closeStream_keeps err s r s' :
  closeStream err s = Ok (r, s') ->
  writeCh s' = writeCh s
  /\ responseHandlers s' = responseHandlers s
  /\ nextMessageID s' = nextMessageID s
  /\ handler s' = handler s.
Proof.
  destruct s as [[n cerr] h id w rh ch serr sd lg].
  unfold closeStream, CompareAndSwap, close_shutdownCh, conn_Close. cbn.
  destruct sd, ch, cerr; cbn; intros [= <- <-] || discriminate; auto.
Qed.

Lemma state_of_closeStream_keeps err s :
  writeCh (state_of (closeStream err s) s) = writeCh s
  /\ responseHandlers (state_of (closeStream err s) s) = responseHandlers s
  /\ nextMessageID (state_of (closeStream err s) s) = nextMessageID s.
Proof.
  destruct (closeStream err s) as [[r s']|msg] eqn:Hc; cbn; [|auto].
  destruct (closeStream_keeps err s r s' Hc) as (H1 & H2 & H3 & _). auto.
Qed.

Lemma reader_turn_keeps r s t :
  reader_turn r s = Some (Ok t) ->
  writeCh (r_stream t) = writeCh s
  /\ nextMessageID (r_stream t) = nextMessageID s.
Proof.
  destruct r as [err|err|m]; cbn [reader_turn].
  - destruct (closeStream (wrapError "read" err) s) as [[r s']|msg] eqn:Hc;
      cbn; [|discriminate]. intros [= <-]. cbn.
    destruct (closeStream_keeps _ _ _ _ Hc) as (H1 & _ & H3 & _). auto.
  - destruct (closeStream (wrapError "decode header" err) s)
      as [[r s']|msg] eqn:Hc; cbn; [|discriminate]. intros [= <-]. cbn.
    destruct (closeStream_keeps _ _ _ _ Hc) as (H1 & _ & H3 & _). auto.
  - destruct (Response (Flags (Header m))).
    + unfold handleResponse.
      destruct (responseHandlers s !! ID (Header m)) as [[|x l]|];
        try discriminate; intros [= <-]; auto.
    + intros [= <-]. auto.
Qed.

(** ** The order of the writes *)

Lemma drop_same {A} (l : list A) : drop (length l) l = [].
Proof. induction l; [reflexivity|exact IHl]. Qed.

(** One step of a run: what the writer took, followed by the write
    channel after the step, is the write channel before the step followed
    by what the step queued. *)
Lemma step_queue o s :
  ((written_by o s ++ lost_by o s) ++ writeCh (apply_op o s)
   = writeCh s ++ queued_by o s)%list.
Proof.
  destruct o as [ctx rpcType req c|ctx id c|r|m c|c w|t];
    cbn [written_by lost_by queued_by app].
  - cbn [apply_op]. unfold RPC_send.
    cbn [writeCh set_responseHandlers set_nextMessageID shutdownCh].
    destruct c.
    + destruct (length (writeCh s) <? writeCh_cap)%nat; cbn [writeCh set_writeCh].
      * now rewrite drop_own_length.
      * now rewrite drop_same, app_nil_r.
    + destruct (shutdownCh s); cbn; now rewrite drop_same, app_nil_r.
    + destruct ctx; cbn; now rewrite drop_same, app_nil_r.
  - cbn [apply_op]. unfold RPC_wait. rewrite app_nil_r. destruct c.
    + destruct (responseHandlers s !! id) as [[|resp l]|]; try reflexivity.
      destruct (ErrNotSupported (Flags (Header resp))); reflexivity.
    + destruct (shutdownCh s); reflexivity.
    + destruct ctx; reflexivity.
  - cbn [apply_op]. rewrite app_nil_r.
    destruct (reader_turn r s) as [[t|msg]|] eqn:Hr; try reflexivity.
    now destruct (reader_turn_keeps r s t Hr).
  - cbn [apply_op]. unfold handleRequest.
    destruct (Find (handler s) (RPCType (Header m))); unfold select_send;
      destruct c; cbn [send_ready writeCh shutdownCh logger];
      [destruct (length (writeCh s) <? writeCh_cap)%nat
      |destruct (shutdownCh s)
      |destruct (length (writeCh s) <? writeCh_cap)%nat
      |destruct (shutdownCh s)];
      cbn [writeCh set_writeCh logger];
      rewrite ?drop_own_length, ?drop_same, ?app_nil_r; reflexivity.
  - cbn [apply_op]. rewrite app_nil_r. unfold writer_turn. destruct c.
    + destruct (writeCh s) as [|req rest] eqn:Hw; [now rewrite Hw|].
      destruct (write req w) as [[err|] calls].
      * destruct (closeStream (wrapError "write" err) (set_writeCh rest s))
          as [[r s']|msg] eqn:Hc; cbn; [|now rewrite Hw].
        destruct (closeStream_keeps _ _ _ _ Hc) as (H1 & _). now rewrite H1.
      * cbn. reflexivity.
    + destruct (shutdownCh s); reflexivity.
  - cbn [apply_op]. rewrite app_nil_r. unfold fire.
    now destruct (state_of_closeStream_keeps (trigger_error t) s) as [-> _].
Qed.

(** X13: the writer writes in the order of queueing.  In every run of a
    stream (calls of RPC and handleRequest that queue messages, turns of
    the reader and of the writer, shutdown triggers), the messages the
    writer took off the write channel, in the order it took them, followed
    by the messages still on the channel, are the messages that were on
    the channel at the start followed by the messages queued during the
    run in the order they were queued.  A message is written when the
    write of its turn returns no error; on an error the message is dropped
    and the turn shuts the stream down and ends the writer's loop. *)
Theorem writer_keeps_the_order_of_queueing
    (ops : list stream_op) (s : stream) :
  (collect (fun o s => written_by o s ++ lost_by o s)%list ops s
   ++ writeCh (run_ops ops s)
   = writeCh s ++ collect queued_by ops s)%list
  /\ forall (w : conn_writes) (s0 : stream) m rest,
       writeCh s0 = m :: rest ->
       shutdown_consistent s0 ->
       exists t,
         writer_turn CaseTake w s0 = Some (Ok t)
         /\ w_taken t = Some m
         /\ writeCh (w_stream t) = rest
         /\ w_err t = fst (write m w)
         /\ match w_err t with
            | None => w_goes_on t = true /\ shutdown (w_stream t) = shutdown s0
            | Some _ => w_goes_on t = false /\ shutdown (w_stream t) = true
            end.
Proof.
  split.
  - revert s. induction ops as [|o ops IH]; intros s; cbn [collect].
    + cbn. now rewrite app_nil_r.
    + change (run_ops (o :: ops) s) with (run_ops ops (apply_op o s)).
      rewrite <- !app_assoc, IH, !app_assoc, step_queue. reflexivity.
  - intros w s0 m rest Hw Hcons. unfold writer_turn. rewrite Hw.
    destruct (write m w) as [[err|] calls] eqn:Hwrite; cbn [fst].
    + destruct s0 as [[n cerr] h id q rh ch serr sd lg]. cbn in Hw. subst q.
      unfold shutdown_consistent in Hcons. cbn in Hcons.
      unfold closeStream, CompareAndSwap, close_shutdownCh, conn_Close. cbn.
      destruct sd; cbn.
      * eexists. split; [reflexivity|]. cbn. auto.
      * rewrite (Hcons eq_refl). cbn.
        destruct cerr; (eexists; split; [reflexivity|]); cbn; auto.
    + eexists. split; [reflexivity|]. cbn. auto.
Qed.

(** ** Response channels *)

Lemma uint64_wrap_small z : 0 <= z < 2 ^ 64 -> uint64_wrap z = z.
Proof. intros H. unfold uint64_wrap. now apply Z.mod_small. Qed.

Lemma reader_turn_slots r s t k :
  reader_turn r s = Some (Ok t) ->
  is_Some (responseHandlers (r_stream t) !! k) ->
  is_Some (responseHandlers s !! k).
Proof.
  destruct r as [err|err|m]; cbn [reader_turn].
  - destruct (closeStream (wrapError "read" err) s) as [[r s']|msg] eqn:Hc;
      cbn; [|discriminate]. intros [= <-]. cbn.
    destruct (closeStream_keeps _ _ _ _ Hc) as (_ & -> & _). auto.
  - destruct (closeStream (wrapError "decode header" err) s)
      as [[r s']|msg] eqn:Hc; cbn; [|discriminate]. intros [= <-]. cbn.
    destruct (closeStream_keeps _ _ _ _ Hc) as (_ & -> & _). auto.
  - destruct (Response (Flags (Header m))).
    + unfold handleResponse.
      destruct (responseHandlers s !! ID (Header m)) as [[|x l]|] eqn:Hm;
        try discriminate; intros [= <-]; cbn; auto.
      destruct (decide (ID (Header m) = k)) as [<-|Hne].
      * rewrite Hm. eauto.
      * now rewrite lookup_insert_ne.
    + intros [= <-]. auto.
Qed.

(** A step of a run keeps the registered response channels among the
    message IDs handed out, the counter moving by one at most. *)
Lemma apply_op_slots o s b :
  slots_handed_out s ->
  nextMessageID s <= b -> b < 2 ^ 64 - 1 ->
  slots_handed_out (apply_op o s) /\ nextMessageID (apply_op o s) <= b + 1.
Proof.
  intros [H0 Hslots] Hb Hmax.
  assert (Hkeep : forall s' : stream,
    nextMessageID s' = nextMessageID s ->
    (forall k, is_Some (responseHandlers s' !! k) ->
               is_Some (responseHandlers s !! k)) ->
    slots_handed_out s' /\ nextMessageID s' <= b + 1).
  { intros s' Hn Hk. split; [split|]; rewrite ?Hn; try lia.
    intros id Hid. apply Hslots, Hk, Hid. }
  destruct o as [ctx rpcType req c|ctx id c|r|m c|c w|t]; cbn [apply_op].
  - unfold RPC_send.
    rewrite (uint64_wrap_small (nextMessageID s + 1)) by lia.
    assert (Hnew : forall s' : stream,
      nextMessageID s' = nextMessageID s + 1 ->
      (forall k, is_Some (responseHandlers s' !! k) ->
                 k = nextMessageID s + 1 \/ is_Some (responseHandlers s !! k)) ->
      slots_handed_out s' /\ nextMessageID s' <= b + 1).
    { intros s' Hn Hk. split; [split|]; rewrite ?Hn; try lia.
      intros id Hid. destruct (Hk id Hid) as [->|Hold]; [lia|].
      apply Hslots in Hold. lia. }
    cbn [writeCh shutdownCh shutdownErr set_responseHandlers
         set_nextMessageID responseHandlers].
    destruct c.
    + destruct (length (writeCh s) <? writeCh_cap)%nat.
      * apply Hnew; [reflexivity|]. intros k. cbn.
        rewrite lookup_insert_is_Some. intros [<-|[_ H]]; auto.
      * apply Hkeep; auto.
    + destruct (shutdownCh s).
      * apply Hnew; [reflexivity|]. intros k. cbn.
        rewrite lookup_delete_is_Some, lookup_insert_is_Some.
        intros [_ [<-|[_ H]]]; auto.
      * apply Hkeep; auto.
    + destruct ctx.
      * apply Hnew; [reflexivity|]. intros k. cbn.
        rewrite lookup_delete_is_Some, lookup_insert_is_Some.
        intros [_ [<-|[_ H]]]; auto.
      * apply Hkeep; auto.
  - unfold RPC_wait.
    assert (Hdel : forall k,
      is_Some (delete id (responseHandlers s) !! k) ->
      is_Some (responseHandlers s !! k))
      by (intros k; rewrite lookup_delete_is_Some; tauto).
    destruct c.
    + destruct (responseHandlers s !! id) as [[|resp l]|];
        try (apply Hkeep; auto; fail).
      destruct (ErrNotSupported (Flags (Header resp))); apply Hkeep; auto.
    + destruct (shutdownCh s); apply Hkeep; auto.
    + destruct ctx; apply Hkeep; auto.
  - destruct (reader_turn r s) as [[t|msg]|] eqn:Hr;
      try (apply Hkeep; auto; fail).
    apply Hkeep.
    + now destruct (reader_turn_keeps r s t Hr).
    + intros k. apply (reader_turn_slots r s t k Hr).
  - unfold handleRequest, select_send.
    destruct (Find (handler s) (RPCType (Header m))), c;
      cbn [send_ready writeCh shutdownCh logger];
      [destruct (length (writeCh s) <? writeCh_cap)%nat
      |destruct (shutdownCh s)
      |destruct (length (writeCh s) <? writeCh_cap)%nat
      |destruct (shutdownCh s)]; apply Hkeep; auto.
  - unfold writer_turn. destruct c.
    + destruct (writeCh s) as [|req rest]; [apply Hkeep; auto|].
      destruct (write req w) as [[err|] calls]; [|apply Hkeep; auto].
      destruct (closeStream (wrapError "write" err) (set_writeCh rest s))
        as [[r s']|msg] eqn:Hc; cbn; [|apply Hkeep; auto].
      destruct (closeStream_keeps _ _ _ _ Hc) as (_ & H2 & H3 & _).
      apply Hkeep; [exact H3|]. intros k. now rewrite H2.
    + destruct (shutdownCh s); apply Hkeep; auto.
  - unfold fire.
    destruct (state_of_closeStream_keeps (trigger_error t) s) as (_ & H2 & H3).
    apply Hkeep; [exact H3|]. intros k. now rewrite H2.
Qed.

Lemma run_ops_slots ops : forall s b,
  slots_handed_out s ->
  nextMessageID s <= b -> b + Z.of_nat (length ops) < 2 ^ 64 ->
  slots_handed_out (run_ops ops s)
  /\ nextMessageID (run_ops ops s) <= b + Z.of_nat (length ops).
Proof.
  induction ops as [|o ops IH]; intros s b Hs Hb Hmax.
  - cbn. split; [exact Hs|lia].
  - change (run_ops (o :: ops) s) with (run_ops ops (apply_op o s)).
    cbn [length] in *.
    destruct (apply_op_slots o s b Hs Hb ltac:(lia)) as [Hs1 Hb1].
    destruct (IH (apply_op o s) (b + 1) Hs1 Hb1 ltac:(lia)) as [Hs2 Hb2].
    split; [exact Hs2|lia].
Qed.

(** X14: response channels are not orphaned.  In a stream reached from
    NewStream by a run of fewer than 2^64 - 1 steps, every registered
    response channel belongs to a message ID that RPC has handed out (from
    1 to the counter).  An RPC on it takes an ID that has no channel yet;
    when it gives up at its first select (stream shut down or context
    done) the table of response channels is as before the call.  On any
    stream, the second select of RPC unregisters the channel whatever case
    it takes, and a response whose ID has no channel is dropped, the stream
    staying as it is. *)
Theorem response_channels_are_not_orphaned
    (c : Conn) (h : gmap Z HandlerFunc) (ops : list stream_op) :
  Z.of_nat (length ops) < 2 ^ 64 - 1 ->
  slots_handed_out (run_ops ops (NewStream c h))
  /\ (forall ctx rpcType req c1 r s1,
        RPC_send ctx rpcType req c1 (run_ops ops (NewStream c h))
        = Some (r, s1) ->
        match r with
        | inl id =>
            responseHandlers (run_ops ops (NewStream c h)) !! id = None
            /\ responseHandlers s1
               = <[id := []]> (responseHandlers (run_ops ops (NewStream c h)))
        | inr _ =>
            responseHandlers s1
            = responseHandlers (run_ops ops (NewStream c h))
        end)
  /\ (forall ctx id c2 out s s2,
        RPC_wait ctx id c2 s = Some (out, s2) ->
        responseHandlers s2 = delete id (responseHandlers s))
  /\ (forall m s,
        responseHandlers s !! ID (Header m) = None ->
        handleResponse m s = Some s).
Proof.
  intros Hlen.
  assert (Hinit : slots_handed_out (NewStream c h)).
  { split; [cbn; lia|]. intros id. cbn. rewrite lookup_empty.
    intros [x [=]]. }
  destruct (run_ops_slots ops (NewStream c h) 0 Hinit ltac:(cbn; lia)
              ltac:(lia)) as [[H0 Hslots] Hb].
  set (s := run_ops ops (NewStream c h)) in *.
  split; [split; assumption|]. split; [|split].
  - intros ctx rpcType req c1 r s1. unfold RPC_send.
    rewrite (uint64_wrap_small (nextMessageID s + 1)) by lia.
    assert (Hfresh : responseHandlers s !! (nextMessageID s + 1) = None).
    { destruct (responseHandlers s !! (nextMessageID s + 1)) eqn:Hk; auto.
      assert (is_Some (responseHandlers s !! (nextMessageID s + 1))) as Hsome
        by eauto.
      apply Hslots in Hsome. lia. }
    cbn [writeCh shutdownCh shutdownErr set_responseHandlers
         set_nextMessageID responseHandlers].
    destruct c1.
    + destruct (length (writeCh s) <? writeCh_cap)%nat; [|discriminate].
      intros [= <- <-]. cbn. auto.
    + destruct (shutdownCh s); [|discriminate]. intros [= <- <-]. cbn.
      rewrite delete_insert_eq. now apply delete_id.
    + destruct ctx; [|discriminate]. intros [= <- <-]. cbn.
      rewrite delete_insert_eq. now apply delete_id.
  - intros ctx id c2 out s' s2. unfold RPC_wait. destruct c2.
    + destruct (responseHandlers s' !! id) as [[|resp l]|]; try discriminate.
      destruct (ErrNotSupported (Flags (Header resp)));
        intros [= _ <-]; reflexivity.
    + destruct (shutdownCh s'); [|discriminate]. intros [= _ <-]. reflexivity.
    + destruct ctx; [|discriminate]. intros [= _ <-]. reflexivity.
  - intros m s' Hm. unfold handleResponse. now rewrite Hm.
Qed.

Lemma response_channels_are_not_orphaned_witness :
  slots_handed_out
    (run_ops [OpRPCSend None 1 [] CaseProceed;
              OpRPCWait (Some Canceled) 1 CaseCtxDone] (NewStream conn0 ∅))
  /\ responseHandlers
       (run_ops [OpRPCSend None 1 [] CaseProceed;
                 OpRPCWait (Some Canceled) 1 CaseCtxDone] (NewStream conn0 ∅))
     = ∅.
Proof.
  split.
  - apply (response_channels_are_not_orphaned conn0 ∅
             [OpRPCSend None 1 [] CaseProceed;
              OpRPCWait (Some Canceled) 1 CaseCtxDone]).
    vm_compute. reflexivity.
  - vm_compute. reflexivity.
Defined.

(** ** The shutdown error *)






End RpcSpec.
